(** * Indexed entropy coder: scalar and vectorised rANS orchestrators

    A shallow embedding of [src/compression/entropy_coding.py] and the
    properties its specification states about it.  Python exceptions and
    failed assertions are the [None] of the option monad; numpy arrays are
    a shape together with their cells in row-major order. *)

From Stdlib Require DecimalString DecimalNat DecimalFacts.
From Stdlib Require Import Ascii String ZArith List Bool Lia.
Import ListNotations.
Local Open Scope Z_scope.

(** ** Fallible computations *)

Notation "x <- e ;; k" :=
  (match e with Some x => k | None => None end)
  (at level 61, e at next level, right associativity).
Notation "' pat <- e ;; k" :=
  (match e with Some pat => k | None => None end)
  (at level 61, pat pattern, e at next level, right associativity).
Notation "'assert' b ;; k" :=
  (if (b : bool) then k else None)
  (at level 61, b at next level, right associativity).

Fixpoint mapM {A B} (f : A -> option B) (xs : list A) : option (list B) :=
  match xs with
  | [] => Some []
  | x :: xs' => y <- f x ;; ys <- mapM f xs' ;; Some (y :: ys)
  end.

(** [for x in xs: st = body(st, x)], stopping at the first failure. *)
Fixpoint for_each {St A} (body : St -> A -> option St) (xs : list A) (st : St)
  : option St :=
  match xs with
  | [] => Some st
  | x :: xs' => st' <- body st x ;; for_each body xs' st'
  end.

(** ** Python sequences *)

(** [xs[i]] for an integer [i]: negative indices count from the end,
    anything else out of range raises. *)
Definition py_index {A} (xs : list A) (i : Z) : option A :=
  let n := Z.of_nat (length xs) in
  if (0 <=? i) && (i <? n) then nth_error xs (Z.to_nat i)
  else if (- n <=? i) && (i <? 0) then nth_error xs (Z.to_nat (n + i))
  else None.

(** [xs[:stop]]; never raises. *)
Definition py_slice_to {A} (xs : list A) (stop : Z) : list A :=
  let n := Z.of_nat (length xs) in
  firstn (Z.to_nat (if stop <? 0 then Z.max 0 (n + stop) else stop)) xs.

(** [range(n)] *)
Definition range (n : nat) : list nat := seq 0 n.

(** ** numpy arrays *)

Record ndarray (cell : Type) : Type := mk_ndarray {
  shape : list nat;
  data : list cell
}.
Arguments mk_ndarray {cell} _ _.
Arguments shape {cell} _.
Arguments data {cell} _.

Definition size (sh : list nat) : nat := fold_right Nat.mul 1%nat sh.

(** Arrays built by numpy hold as many cells as their shape says. *)
Definition well_shaped {cell} (a : ndarray cell) : Prop :=
  length (data a) = size (shape a).

Definition flatten {cell} (a : ndarray cell) : ndarray cell :=
  mk_ndarray [size (shape a)] (data a).

(** [len(a)] of a one-dimensional array *)
Definition len {cell} (a : ndarray cell) : nat := hd 0%nat (shape a).

(** A numpy scalar is an array of shape [()] with one cell. *)
Definition scalar (v : Z) : ndarray Z := mk_ndarray [] [v].

(** [int(a)], [a.item()]: defined on one-cell arrays only. *)
Definition item (a : ndarray Z) : option Z :=
  match data a with [v] => Some v | _ => None end.

(** [astype(np.int32)] keeps the low 32 bits, two's complement. *)
Definition wrap_int32 (z : Z) : Z := (z + 2 ^ 31) mod 2 ^ 32 - 2 ^ 31.

(** Arithmetic on [int64] wraps around in the same way. *)
Definition wrap_int64 (z : Z) : Z := (z + 2 ^ 63) mod 2 ^ 64 - 2 ^ 63.

Definition astype_int32 (a : ndarray Z) : ndarray Z :=
  mk_ndarray (shape a) (map wrap_int32 (data a)).

(** Cells of a [float64] array.  Every double stored by the decoder comes
    from an integer, so a cell is represented by the integer value of the
    double. *)
Record float64 : Type := Float64 { float_value : Z }.

(** Conversion of an integer to the nearest double, ties to even: exact
    up to 53 bits, rounded to a 53-bit significand beyond. *)
Definition float64_of_int (z : Z) : float64 :=
  let a := Z.abs z in
  if a <? 2 ^ 53 then Float64 z
  else
    let k := Z.log2 a - 52 in
    let q := a / 2 ^ k in
    let r := a mod 2 ^ k in
    let half := 2 ^ (k - 1) in
    let q' := if (half <? r) || ((half =? r) && Z.odd q) then q + 1 else q in
    Float64 (Z.sgn z * (q' * 2 ^ k)).

(** [np.empty(shape)]: a fresh float64 array whose cells are unspecified
    until assigned; the placeholder cell is never read. *)
Definition np_empty (sh : list nat) : ndarray float64 :=
  mk_ndarray sh (repeat (Float64 0) (size sh)).

Fixpoint list_set {A} (xs : list A) (i : nat) (v : A) : option (list A) :=
  match xs, i with
  | [], _ => None
  | _ :: xs', O => Some (v :: xs')
  | x :: xs', S i' => ys <- list_set xs' i' v ;; Some (x :: ys)
  end.

(** [a[i] = v] on a one-dimensional float64 array, [0 <= i]. *)
Definition setitem (a : ndarray float64) (i : nat) (v : Z)
  : option (ndarray float64) :=
  cells <- list_set (data a) i (float64_of_int v) ;;
  Some (mk_ndarray (shape a) cells).

(** [np.searchsorted(a, key, side='right')] for one key: numpy's binary
    search, which returns the insertion point whatever the array holds. *)
Fixpoint binsearch_right (fuel : nat) (a : list Z) (key : Z) (lo hi : nat)
  : nat :=
  match fuel with
  | O => lo
  | S fuel' =>
      if (lo <? hi)%nat then
        let mid := (lo + (hi - lo) / 2)%nat in
        if nth mid a 0 <=? key
        then binsearch_right fuel' a key (S mid) hi
        else binsearch_right fuel' a key lo mid
      else lo
  end.

Definition searchsorted_right (a : list Z) (key : Z) : Z :=
  Z.of_nat (binsearch_right (length a) a key 0 (length a)).

Definition arange (n : Z) : list Z := map Z.of_nat (seq 0 (Z.to_nat n)).

(** *** Broadcasting *)

(** The common shape of two operands, on shapes read from the last axis:
    on every axis the two lengths are equal or one of them is 1; the
    shorter shape counts as padded with axes of length 1.  Anything else
    raises. *)
Fixpoint broadcast_rev (s t : list nat) : option (list nat) :=
  match s, t with
  | [], _ => Some t
  | _, [] => Some s
  | n :: s', m :: t' =>
      r <- broadcast_rev s' t' ;;
      if (n =? m)%nat then Some (n :: r)
      else if (n =? 1)%nat then Some (m :: r)
      else if (m =? 1)%nat then Some (n :: r)
      else None
  end.

Definition broadcast_shapes (s t : list nat) : option (list nat) :=
  r <- broadcast_rev (rev s) (rev t) ;; Some (rev r).

(** The cells of an array of shape [s] read under a shape [t] of as many
    axes that it broadcasts to: an axis of length 1 is repeated. *)
Fixpoint broadcast_cells {A} (s t : list nat) (cells : list A) : list A :=
  match s, t with
  | n :: s', m :: t' =>
      if (n =? m)%nat then
        flat_map
          (fun i =>
             broadcast_cells s' t'
               (firstn (size s') (skipn (i * size s') cells)))
          (seq 0 n)
      else concat (repeat (broadcast_cells s' t' cells) m)
  | _, _ => cells
  end.

Definition broadcast_to {A} (t : list nat) (a : ndarray A) : list A :=
  broadcast_cells (repeat 1%nat (length t - length (shape a)) ++ shape a) t
    (data a).

(** The two operands of an elementwise operation, cell against cell. *)
Definition broadcast2 (a b : ndarray Z) : option (list nat * list (Z * Z)) :=
  t <- broadcast_shapes (shape a) (shape b) ;;
  Some (t, combine (broadcast_to t a) (broadcast_to t b)).

(** Elementwise comparison under [np.all]. *)
Definition np_all2 (r : Z -> Z -> bool) (a b : ndarray Z) : option bool :=
  '(_, cells) <- broadcast2 a b ;;
  Some (forallb (fun xy => r (fst xy) (snd xy)) cells).

Definition np_add (a b : ndarray Z) : option (ndarray Z) :=
  '(t, cells) <- broadcast2 a b ;;
  Some (mk_ndarray t (map (fun xy => fst xy + snd xy) cells)).

(** ** The stack coder *)

(** Modelled from the spec: the module [src/compression/ans.py], imported
    as [vrans], is not among the sources.  Section 4.1 of the specification
    describes it: a renormalising register with a backing word buffer,
    [push] folding the interval [start, start + freq) out of [2^precision]
    into the register, a two-phase [pop] that first peeks the cumulative
    frequency and then completes with the resolved interval, and
    [flatten] / [unflatten] as the serialisation.  The register is 64 bits
    wide with 32-bit buffer words and lower bound [2^31], one register per
    lane of the coding shape, as in the coders the header of
    [entropy_coding.py] names.  A malformed interval is fatal. *)
Module vrans.

Definition rans_l : Z := Z.shiftl 1 31.

Definition uint32 (z : Z) : Z := z mod 2 ^ 32.
Definition uint64 (z : Z) : Z := z mod 2 ^ 64.

(** One register per lane, and the words spilled so far, newest first. *)
Record message : Type := mk_message {
  head : ndarray Z;
  tail : list Z
}.

Definition empty_message (sh : list nat) : message :=
  mk_message (mk_ndarray sh (repeat rans_l (size sh))) [].

Definition valid_interval (precision start freq : Z) : bool :=
  (0 <=? start) && (0 <? freq) && (start + freq <=? Z.shiftl 1 precision).

(** Lanes of a push: register, start, frequency. *)
Definition lanes (hs starts freqs : list Z) : list (Z * (Z * Z)) :=
  combine hs (combine starts freqs).

Definition same_lanes (hs starts freqs : list Z) : bool :=
  (length hs =? length starts)%nat && (length hs =? length freqs)%nat.

(** A register too large to take the interval spills its low word. *)
Definition push_lane (precision : Z) (l : Z * (Z * Z)) : Z * list Z :=
  let '(h, (start, freq)) := l in
  let '(h, spilled) :=
    if Z.shiftl (Z.shiftr rans_l precision) 32 * freq <=? h
    then (Z.shiftr h 32, [uint32 h]) else (h, []) in
  (uint64 (Z.shiftl (h / freq) precision + h mod freq + start), spilled).

Definition push (x : message) (starts freqs : ndarray Z) (precision : Z)
  : option message :=
  let hs := data (head x) in
  assert same_lanes hs (data starts) (data freqs) ;;
  assert forallb (fun sf => valid_interval precision (fst sf) (snd sf))
           (combine (data starts) (data freqs)) ;;
  let r := map (push_lane precision) (lanes hs (data starts) (data freqs)) in
  Some (mk_message (mk_ndarray (shape (head x)) (map fst r))
          (flat_map snd r ++ tail x)).

Definition peek (precision h : Z) : Z :=
  Z.land h (Z.shiftl 1 precision - 1).

Definition pop_lane (precision : Z) (l : Z * (Z * Z)) : Z :=
  let '(h, (start, freq)) := l in
  uint64 (freq * Z.shiftr h precision + peek precision h - start).

(** A register that fell below the lower bound takes back one word. *)
Fixpoint refill (hs : list Z) (words : list Z) : option (list Z * list Z) :=
  match hs with
  | [] => Some ([], words)
  | h :: hs' =>
      if h <? rans_l then
        match words with
        | [] => None
        | w :: words' =>
            '(hs'', rest) <- refill hs' words' ;;
            Some (Z.lor (Z.shiftl h 32) w :: hs'', rest)
        end
      else
        '(hs'', rest) <- refill hs' words ;;
        Some (h :: hs'', rest)
  end.

(** The peeked cumulative frequencies and the completion step. *)
Definition pop (x : message) (precision : Z)
  : ndarray Z * (ndarray Z -> ndarray Z -> option message) :=
  let hs := data (head x) in
  (mk_ndarray (shape (head x)) (map (peek precision) hs),
   fun starts freqs =>
     assert same_lanes hs (data starts) (data freqs) ;;
     '(hs', rest) <-
       refill (map (pop_lane precision) (lanes hs (data starts) (data freqs)))
         (tail x) ;;
     Some (mk_message (mk_ndarray (shape (head x)) hs') rest)).

Definition flatten (x : message) : list Z :=
  let hs := data (head x) in
  map (fun h => uint32 (Z.shiftr h 32)) hs ++ map uint32 hs ++ tail x.

Definition unflatten (arr : list Z) (sh : list nat) : option message :=
  let n := size sh in
  assert (2 * n <=? length arr)%nat ;;
  let hi := firstn n arr in
  let lo := firstn n (skipn n arr) in
  Some (mk_message
          (mk_ndarray sh
             (map (fun hl => Z.lor (Z.shiftl (fst hl) 32) (snd hl)) (combine hi lo)))
          (skipn (2 * n) arr)).

Definition unflatten_scalar (arr : list Z) : option message :=
  unflatten arr [].

End vrans.

(** ** Module constants *)

Definition OVERFLOW_WIDTH : Z := 4.
Definition OVERFLOW_CODE : Z := Z.shiftl 1 (Z.shiftl 1 OVERFLOW_WIDTH).

(** ** The generic symbol codec *)

Record Codec : Type := mk_Codec {
  push : vrans.message -> ndarray Z -> option vrans.message;
  pop : vrans.message -> option (vrans.message * ndarray Z)
}.

Inductive warning : Type := UserWarning (text : string).

Definition precision_warning : warning :=
  UserWarning
    "Detected precision over 28. Codecs lose accuracy at high precision.".

(** The self-consistency check of [pop]:
    [np.all(start <= cf) and np.all(cf < start + freq)]. *)
Definition interval_holds (start freq cf : ndarray Z) : option bool :=
  from_start <- np_all2 Z.leb start cf ;;
  if from_start then
    stop <- np_add start freq ;;
    np_all2 Z.ltb cf stop
  else Some false.

(** [base_codec]: the codec together with the warnings its construction
    emits. *)
Definition base_codec
    (enc_statfun : ndarray Z -> option (ndarray Z * ndarray Z))
    (dec_statfun : ndarray Z -> option (ndarray Z))
    (precision : Z) : Codec * list warning :=
  let warnings := if 24 <=? precision then [precision_warning] else [] in
  let push message symbol :=
    '(start, freq) <- enc_statfun symbol ;;
    vrans.push message start freq precision in
  let pop message :=
    let '(cf, pop_fun) := vrans.pop message precision in
    symbol <- dec_statfun cf ;;
    '(start, freq) <- enc_statfun symbol ;;
    holds <- interval_holds start freq cf ;;
    assert holds ;;
    message' <- pop_fun start freq ;;
    Some (message', symbol) in
  (mk_Codec push pop, warnings).

(** ** The indexed CDF accessor *)

(** [enc_statfun]: symbol to [(start, freq)] on one CDF row. *)
Definition _indexed_cdf_to_enc_statfun (cdf_i : list Z) (value : ndarray Z)
  : option (ndarray Z * ndarray Z) :=
  lower <- mapM (py_index cdf_i) (data value) ;;
  v <- item value ;;
  upper <- py_index cdf_i (v + 1) ;;
  Some (mk_ndarray (shape value) lower,
        mk_ndarray (shape value) (map (fun l => upper - l) lower)).

(** [dec_statfun]: cumulative frequency to symbol on one CDF row cut to
    its declared length; the construction asserts the row's last entry. *)
Definition _indexed_cdf_to_dec_statfun (cdf_i : list Z) (cdf_i_length : Z)
  : option (ndarray Z -> option (ndarray Z)) :=
  let cdf_i := py_slice_to cdf_i cdf_i_length in
  term <- py_index cdf_i (-1) ;;
  assert (term =? OVERFLOW_CODE) || (term =? Z.shiftl 1 OVERFLOW_WIDTH) ;;
  Some (fun cum_freq =>
          Some (mk_ndarray (shape cum_freq)
                  (map (fun c => searchsorted_right cdf_i c - 1)
                     (data cum_freq)))).

(** ** The scalar orchestrator *)

(** The CDF table, a two-dimensional array kept by rows. *)
Record cdf_table : Type := mk_cdf_table {
  cdf_rows : list (list Z);
  cdf_shape1 : Z
}.

Definition cdf_shape0 (cdf : cdf_table) : Z := Z.of_nat (length (cdf_rows cdf)).

(** Every row of the table is as wide as the table. *)
Definition rectangular (cdf : cdf_table) : Prop :=
  Forall (fun row => Z.of_nat (length row) = cdf_shape1 cdf) (cdf_rows cdf).

(** The codec of the escape digits, built at the top of both scalar
    orchestrators. *)
Definition overflow_codec (overflow_width : Z) : option Codec :=
  let overflow_cdf_size := Z.shiftl 1 overflow_width + 1 in
  let overflow_cdf := arange overflow_cdf_size in
  let enc_statfun_overflow := _indexed_cdf_to_enc_statfun overflow_cdf in
  dec_statfun_overflow <-
    _indexed_cdf_to_dec_statfun overflow_cdf (Z.of_nat (length overflow_cdf)) ;;
  Some (fst (base_codec enc_statfun_overflow dec_statfun_overflow overflow_width)).

(** The escape mapping of the scalar encoder: the overflow code and the
    value that is coded.  The code is a numpy integer and wraps around;
    the tables [cdf_length] and [cdf_offset] are taken to be [int64]
    arrays, numpy's default integer type, which makes it a 64-bit one. *)
Definition clamp (value max_value : Z) : Z * Z :=
  if value <? 0 then (wrap_int64 (-2 * value - 1), max_value)
  else if value >=? max_value
       then (wrap_int64 (2 * (value - max_value)), max_value)
  else (0, value).

(** The body of the encoder's loop at position [i]. *)
Definition encode_step (symbols indices : ndarray Z) (cdf : cdf_table)
    (cdf_length cdf_offset : list Z) (precision : Z)
    (message : vrans.message) (i : nat) : option vrans.message :=
  cdf_index <- nth_error (data indices) i ;;
  cdf_i <- py_index (cdf_rows cdf) cdf_index ;;
  cdf_length_i <- py_index cdf_length cdf_index ;;
  assert (0 <=? cdf_index) && (cdf_index <? cdf_shape0 cdf) ;;
  let max_value := cdf_length_i - 2 in
  assert (0 <=? max_value) && (max_value <? cdf_shape1 cdf - 1) ;;
  value <- nth_error (data symbols) i ;;
  offset <- py_index cdf_offset cdf_index ;;
  let value := value - offset in
  let '(overflow, value) := clamp value max_value in
  assert (0 <=? value) && (value <? cdf_length_i - 1) ;;
  let enc_statfun := _indexed_cdf_to_enc_statfun cdf_i in
  dec_statfun <- _indexed_cdf_to_dec_statfun cdf_i cdf_length_i ;;
  let symbol_codec := fst (base_codec enc_statfun dec_statfun precision) in
  message <- push symbol_codec message (scalar value) ;;
  if value =? max_value
  then Some message (* pass: the escape digits are not pushed *)
  else Some message.

Definition ans_index_encoder (symbols indices : ndarray Z) (cdf : cdf_table)
    (cdf_length cdf_offset : list Z) (precision : Z) (overflow_width : Z)
  : option (list Z * list nat) :=
  let message := vrans.empty_message [] in
  let coding_shape := tl (shape symbols) in
  let symbols := flatten (astype_int32 symbols) in
  let indices := flatten (astype_int32 indices) in
  _ <- overflow_codec overflow_width ;;
  message <-
    for_each (encode_step symbols indices cdf cdf_length cdf_offset precision)
      (rev (range (len indices))) message ;;
  let encoded := vrans.flatten message in
  Some (encoded, coding_shape).

(** The body of the decoder's loop at position [i]. *)
Definition decode_step (indices : ndarray Z) (cdf : cdf_table)
    (cdf_length cdf_offset : list Z) (precision : Z)
    (st : vrans.message * ndarray float64) (i : nat)
  : option (vrans.message * ndarray float64) :=
  let '(message, decoded) := st in
  cdf_index <- nth_error (data indices) i ;;
  cdf_i <- py_index (cdf_rows cdf) cdf_index ;;
  cdf_length_i <- py_index cdf_length cdf_index ;;
  assert (0 <=? cdf_index) && (cdf_index <? cdf_shape0 cdf) ;;
  let max_value := cdf_length_i - 2 in
  assert (0 <=? max_value) && (max_value <? cdf_shape1 cdf - 1) ;;
  let enc_statfun := _indexed_cdf_to_enc_statfun cdf_i in
  dec_statfun <- _indexed_cdf_to_dec_statfun cdf_i cdf_length_i ;;
  let symbol_codec := fst (base_codec enc_statfun dec_statfun precision) in
  '(message, value) <- pop symbol_codec message ;;
  value <- item value ;;
  let value :=
    if value =? max_value
    then value (* pass: no escape digits are popped *)
    else value in
  offset <- py_index cdf_offset cdf_index ;;
  let symbol := value + offset in
  decoded <- setitem decoded i symbol ;;
  Some (message, decoded).

Definition ans_index_decoder (encoded : list Z) (indices : ndarray Z)
    (cdf : cdf_table) (cdf_length cdf_offset : list Z) (precision : Z)
    (coding_shape : list nat) (overflow_width : Z)
  : option (ndarray float64) :=
  message <- vrans.unflatten_scalar encoded ;;
  let decoded := flatten (np_empty (shape indices)) in
  let indices := flatten (astype_int32 indices) in
  _ <- overflow_codec overflow_width ;;
  '(_, decoded) <-
    for_each (decode_step indices cdf cdf_length cdf_offset precision)
      (range (len indices)) (message, decoded) ;;
  Some decoded.

(** ** The vectorised orchestrator *)

(** Elementwise operation on two arrays of as many cells. *)
Fixpoint zip_with {A B C} (f : A -> B -> option C) (xs : list A) (ys : list B)
  : option (list C) :=
  match xs, ys with
  | [], [] => Some []
  | x :: xs', y :: ys' =>
      z <- f x y ;; zs <- zip_with f xs' ys' ;; Some (z :: zs)
  | _, _ => None
  end.

Definition shape_eqb (s1 s2 : list nat) : bool :=
  (length s1 =? length s2)%nat
  && forallb (fun xy => (fst xy =? snd xy)%nat) (combine s1 s2).

(** [np.squeeze] drops the axes of length one. *)
Definition squeeze (sh : list nat) : list nat :=
  filter (fun d => negb (d =? 1)%nat) sh.

(** [a[i]] along the leading axis, [0 <= i]. *)
Definition nd_get {cell} (a : ndarray cell) (i : nat) : option (ndarray cell) :=
  match shape a with
  | [] => None
  | n :: sh =>
      assert (i <? n)%nat ;;
      Some (mk_ndarray sh (firstn (size sh) (skipn (i * size sh) (data a))))
  end.

(** [table[index]] with an integer array as index. *)
Definition take {A} (table : list A) (index : ndarray Z) : option (ndarray A) :=
  cells <- mapM (py_index table) (data index) ;;
  Some (mk_ndarray (shape index) cells).

(** [np.stack(arrays, axis=0)] *)
Definition np_stack (arrays : list (ndarray Z)) : option (ndarray Z) :=
  match arrays with
  | [] => None
  | a :: _ =>
      assert forallb (fun b => shape_eqb (shape b) (shape a)) arrays ;;
      Some (mk_ndarray (length arrays :: shape a) (flat_map data arrays))
  end.

(** [enc_statfun] on a whole lane vector: one CDF row per cell. *)
Definition _vec_indexed_cdf_to_enc_statfun (cdf_i : ndarray (list Z))
    (value : ndarray Z) : option (ndarray Z * ndarray Z) :=
  lower <- zip_with py_index (data cdf_i) (data value) ;;
  upper <- zip_with py_index (data cdf_i) (map (fun v => v + 1) (data value)) ;;
  freq <- zip_with (fun u l => Some (u - l)) upper lower ;;
  Some (mk_ndarray (squeeze (shape value)) lower,
        mk_ndarray (squeeze (shape value)) freq).

(** [dec_statfun] on a whole lane vector: every row is cut to its own
    declared length before the search. *)
Definition _vec_indexed_cdf_to_dec_statfun (cdf_i : ndarray (list Z))
    (cdf_i_length : ndarray Z) (value : ndarray Z) : option (ndarray Z) :=
  let coding_shape := shape cdf_i in
  let cdf_i_flat := data cdf_i in
  let cdf_i_flat_ragged :=
    map (fun cl => py_slice_to (fst cl) (snd cl))
      (combine cdf_i_flat (data cdf_i_length)) in
  assert shape_eqb (shape value) coding_shape ;;
  let sym_flat :=
    map (fun cv => searchsorted_right (fst cv) (snd cv) - 1)
      (combine cdf_i_flat_ragged (data value)) in
  assert (length sym_flat =? size coding_shape)%nat ;;
  Some (mk_ndarray coding_shape sym_flat).

(** The escape mapping as the vectorised encoder computes it, cell by
    cell: two masked updates in a row, the second mask taken on the values
    the first update has already clamped.  The codes are cells of an
    [int64] array and wrap around like the scalar encoder's. *)
Definition vec_clamp (value max_value : Z) : Z * Z :=
  let overflow := 0 in
  let of_mask := value <? 0 in
  let overflow := if of_mask then wrap_int64 (-2 * value - 1) else overflow in
  let value := if of_mask then max_value else value in
  let of_mask := value >=? max_value in
  let overflow :=
    if of_mask then wrap_int64 (2 * (value - max_value)) else overflow in
  let value := if of_mask then max_value else value in
  (overflow, value).

Definition PATCH_SIZE : nat * nat := (4%nat, 4%nat).

Section Patches.

(** The patch utilities of [compression_utils] are collaborators that
    are not among the sources; the orchestrators take them as given. *)
Variable unfolded : Type.
Variable decompose : ndarray Z -> nat -> option (ndarray Z * unfolded).
Variable reconstitute :
  ndarray Z -> list nat -> unfolded -> option (ndarray Z).

Definition vec_encode_step (values cdf_index : ndarray Z) (cdf : cdf_table)
    (cdf_length : list Z) (precision : Z)
    (message : vrans.message) (i : nat) : option vrans.message :=
  value_i <- nd_get values i ;;
  cdf_index_i <- nd_get cdf_index i ;;
  cdf_i <- take (cdf_rows cdf) cdf_index_i ;;
  cdf_i_length <- take cdf_length cdf_index_i ;;
  let enc_statfun := _vec_indexed_cdf_to_enc_statfun cdf_i in
  let dec_statfun := _vec_indexed_cdf_to_dec_statfun cdf_i cdf_i_length in
  let symbol_codec := fst (base_codec enc_statfun dec_statfun precision) in
  push symbol_codec message value_i.

Definition vec_ans_index_encoder (symbols indices : ndarray Z)
    (cdf : cdf_table) (cdf_length cdf_offset : list Z) (precision : Z)
    (coding_shape : list nat) (overflow_width : Z)
  : option (list Z * list nat) :=
  let symbols_shape := shape symbols in
  match symbols_shape with
  | B :: n_channels :: _ =>
      let symbols := astype_int32 symbols in
      let indices := astype_int32 indices in
      let cdf_index := indices in
      assert forallb (fun k => (0 <=? k) && (k <? cdf_shape0 cdf))
               (data cdf_index) ;;
      lengths <- take cdf_length cdf_index ;;
      let max_value := map (fun l => l - 2) (data lengths) in
      assert forallb (fun m => (0 <=? m) && (m <? cdf_shape1 cdf - 1))
               max_value ;;
      offsets <- take cdf_offset cdf_index ;;
      shifted <-
        zip_with (fun s o => Some (s - o)) (data symbols) (data offsets) ;;
      clamped <-
        zip_with (fun v m => Some (vec_clamp v m)) shifted max_value ;;
      let overflow := map fst clamped in
      let values := mk_ndarray symbols_shape (map snd clamped) in
      assert forallb (fun v => 0 <=? v) (data values) ;;
      assert forallb (fun vl => fst vl <? snd vl - 1)
               (combine (data values) (data lengths)) ;;
      '(values, cdf_index, coding_shape) <-
        (if (B =? 1)%nat then
           match symbols_shape with
           | _ :: _ :: h :: w :: _ =>
               assert ((h mod fst PATCH_SIZE =? 0)
                       && (w mod snd PATCH_SIZE =? 0))%nat ;;
               '(values, _) <- decompose values n_channels ;;
               '(cdf_index, unfolded_shape) <- decompose indices n_channels ;;
               Some (values, cdf_index, tl (shape values))
           | _ => None
           end
         else Some (values, cdf_index, coding_shape)) ;;
      let message := vrans.empty_message coding_shape in
      message <-
        for_each (vec_encode_step values cdf_index cdf cdf_length precision)
          (rev (range (len cdf_index))) message ;;
      let encoded := vrans.flatten message in
      Some (encoded, coding_shape)
  | _ => None
  end.

Definition vec_decode_step (cdf_index : ndarray Z) (cdf : cdf_table)
    (cdf_length cdf_offset : list Z) (precision : Z)
    (st : vrans.message * list (ndarray Z)) (i : nat)
  : option (vrans.message * list (ndarray Z)) :=
  let '(message, symbols) := st in
  cdf_index_i <- nd_get cdf_index i ;;
  cdf_i <- take (cdf_rows cdf) cdf_index_i ;;
  cdf_length_i <- take cdf_length cdf_index_i ;;
  let enc_statfun := _vec_indexed_cdf_to_enc_statfun cdf_i in
  let dec_statfun := _vec_indexed_cdf_to_dec_statfun cdf_i cdf_length_i in
  let symbol_codec := fst (base_codec enc_statfun dec_statfun precision) in
  '(message, value) <- pop symbol_codec message ;;
  offsets <- take cdf_offset cdf_index_i ;;
  cells <- zip_with (fun v o => Some (v + o)) (data value) (data offsets) ;;
  let symbol := mk_ndarray (shape value) cells in
  Some (message, symbols ++ [symbol]).

Definition vec_ans_index_decoder (encoded : list Z) (indices : ndarray Z)
    (cdf : cdf_table) (cdf_length cdf_offset : list Z) (precision : Z)
    (coding_shape : list nat) (overflow_width : Z) : option (ndarray Z) :=
  let original_shape := shape indices in
  match original_shape with
  | B :: n_channels :: _ =>
      message <- vrans.unflatten encoded coding_shape ;;
      let indices := astype_int32 indices in
      let cdf_index := indices in
      assert forallb (fun k => (0 <=? k) && (k <? cdf_shape0 cdf))
               (data cdf_index) ;;
      lengths <- take cdf_length cdf_index ;;
      let max_value := map (fun l => l - 2) (data lengths) in
      assert forallb (fun m => (0 <=? m) && (m <? cdf_shape1 cdf - 1))
               max_value ;;
      '(cdf_index, unfolded_shape) <-
        (if (B =? 1)%nat then
           '(indices, unfolded_shape) <- decompose indices n_channels ;;
           assert shape_eqb (tl (shape indices)) coding_shape ;;
           Some (indices, Some unfolded_shape)
         else Some (cdf_index, None)) ;;
      '(_, symbols) <-
        for_each (vec_decode_step cdf_index cdf cdf_length cdf_offset precision)
          (range (len cdf_index)) (message, []) ;;
      stacked <- np_stack symbols ;;
      match unfolded_shape with
      | Some unfolded_shape =>
          reconstitute stacked original_shape unfolded_shape
      | None => Some stacked
      end
  | _ => None
  end.

End Patches.

(** ** Vocabulary of the statements *)

(** A CDF row does not decrease. *)
Fixpoint nondecreasingb (row : list Z) : bool :=
  match row with
  | a :: (b :: _) as rest => (a <=? b) && nondecreasingb rest
  | _ => true
  end.

(** [i] is the rightmost index of [row] whose entry is at most [key]. *)
Definition rightmost_le (row : list Z) (key i : Z) : Prop :=
  0 <= i < Z.of_nat (length row)
  /\ nth (Z.to_nat i) row 0 <= key
  /\ forall j, i < j < Z.of_nat (length row) -> key < nth (Z.to_nat j) row 0.

(** [i] is the rightmost index among the first [l] entries of [row] whose
    entry is at most [key]. *)
Definition rightmost_among_first (l : Z) (row : list Z) (key i : Z) : Prop :=
  0 <= i < l
  /\ nth (Z.to_nat i) row 0 <= key
  /\ forall j, i < j < l -> key < nth (Z.to_nat j) row 0.

(** ** Inputs of the worked examples *)

(** One position, one row [0, 8, 16] of declared length 3 at precision 4:
    the value 0 is modelled, the bin 1 is the escape bin. *)
Definition one_position : ndarray Z := mk_ndarray [1%nat] [0].
Definition escape_table : cdf_table := mk_cdf_table [[0; 8; 16]] 3.

(** Two regular bins and the escape bin, total mass [2^4]; the same row
    with other bin boundaries. *)
Definition encode_table : cdf_table := mk_cdf_table [[0; 4; 8; 16]] 4.

(** The uniform row of three equal bins at precision 8 (total mass 256,
    boundaries rounded to integers). *)
Definition uniform3_table : cdf_table := mk_cdf_table [[0; 85; 170; 256]] 4.


Definition three_positions : ndarray Z := mk_ndarray [3%nat] [0; 0; 0].

(** A 2 x 3 symbol tensor on a row of total mass [2^16]. *)
Definition mass16_table : cdf_table := mk_cdf_table [[0; 1; 65535; 65536]] 4.
Definition grid_symbols : ndarray Z :=
  mk_ndarray [2%nat; 3%nat] [0; 0; 0; 1; 0; 0].
Definition grid_positions : ndarray Z :=
  mk_ndarray [2%nat; 3%nat] [0; 0; 0; 0; 0; 0].

(** Two lanes of two cells on rows of total mass [2^8], for the vectorised
    orchestrator; with two lanes the patch utilities are never called. *)
Definition mass8_table : cdf_table :=
  mk_cdf_table [[0; 64; 128; 256]; [0; 100; 200; 256]] 4.
Definition lane_symbols : ndarray Z := mk_ndarray [2%nat; 2%nat] [1; 0; 0; 1].
Definition lane_positions : ndarray Z := mk_ndarray [2%nat; 2%nat] [0; 1; 1; 0].
Definition no_decompose (a : ndarray Z) (n_channels : nat)
  : option (ndarray Z * unit) := None.
Definition no_reconstitute (a : ndarray Z) (original_shape : list nat)
    (unfolded_shape : unit) : option (ndarray Z) := None.

(** Decoding what the encoder produced, with tables of the decoder's own. *)
Definition decode_encoded (symbols indices : ndarray Z)
    (cdf cdf' : cdf_table) (cdf_length cdf_offset : list Z) (precision : Z)
  : option (ndarray float64) :=
  '(encoded, coding_shape) <-
    ans_index_encoder symbols indices cdf cdf_length cdf_offset precision
      OVERFLOW_WIDTH ;;
  ans_index_decoder encoded indices cdf' cdf_length cdf_offset precision
    coding_shape OVERFLOW_WIDTH.

(** The cells of a float64 array that hold exactly the given integers. *)
Definition floats (zs : list Z) : list float64 := map Float64 zs.

(** The register of a lane between two operations lies in the coder's
    normalisation interval. *)
Definition register_in_range (h : Z) : Prop := vrans.rans_l <= h < 2 ^ 63.

(** The message of the scalar orchestrators: one lane of shape [()]. *)
Definition scalar_message (h : Z) (words : list Z) : vrans.message :=
  vrans.mk_message (mk_ndarray [] [h]) words.

(** The data model of the specification, as checks on the arguments. *)

Definition int32_range (z : Z) : bool := (- 2 ^ 31 <=? z) && (z <? 2 ^ 31).

(** A row with declared length [l] is a CDF of total mass [2^precision]:
    [1 < l], the first [l] entries exist, start at 0, do not decrease and
    end at [2^precision]. *)
Definition cdf_row_ok (precision : Z) (row : list Z) (l : Z) : bool :=
  (2 <=? l) && (l <=? Z.of_nat (length row))
  && (nth 0 row 0 =? 0)
  && nondecreasingb (py_slice_to row l)
  && (nth (Z.to_nat (l - 1)) row 0 =? 2 ^ precision).

(** The table is rectangular, has one length and one offset per row, and
    every row is a CDF. *)
Definition table_ok (cdf : cdf_table) (cdf_length cdf_offset : list Z)
    (precision : Z) : bool :=
  (length cdf_length =? length (cdf_rows cdf))%nat
  && (length cdf_offset =? length (cdf_rows cdf))%nat
  && forallb
       (fun rl => (Z.of_nat (length (fst rl)) =? cdf_shape1 cdf)
                  && cdf_row_ok precision (fst rl) (snd rl))
       (combine (cdf_rows cdf) cdf_length).

(** A position holding [symbol] under [index]: both are 32-bit integers,
    the index selects a row, the shifted value lies in the row's modelled
    range [0, cdf_length - 2) and its bin has a positive frequency. *)
Definition codable (cdf : cdf_table) (cdf_length cdf_offset : list Z)
    (si : Z * Z) : bool :=
  let '(symbol, index) := si in
  int32_range symbol && int32_range index
  && (0 <=? index) && (index <? cdf_shape0 cdf)
  && match py_index (cdf_rows cdf) index,
           py_index cdf_length index,
           py_index cdf_offset index with
     | Some row, Some l, Some offset =>
         let v := symbol - offset in
         (0 <=? v) && (v <? l - 2)
         && (nth (Z.to_nat v) row 0 <? nth (Z.to_nat (v + 1)) row 0)
     | _, _, _ => false
     end.


(** The vectorised counterpart of [decode_encoded], on two or more lanes. *)
Definition vec_decode_encoded (symbols indices : ndarray Z) (cdf : cdf_table)
    (cdf_length cdf_offset : list Z) (precision : Z) (coding_shape : list nat)
  : option (ndarray Z) :=
  '(encoded, coding_shape) <-
    vec_ans_index_encoder unit no_decompose symbols indices cdf cdf_length
      cdf_offset precision coding_shape OVERFLOW_WIDTH ;;
  vec_ans_index_decoder unit no_decompose no_reconstitute encoded indices cdf
    cdf_length cdf_offset precision coding_shape OVERFLOW_WIDTH.

(** The last valid entry of a row of declared length [l]. *)
Definition last_valid_entry (row : list Z) (l : Z) : option Z :=
  py_index (py_slice_to row l) (-1).


(** A lane about to be pushed: its register is in range and its interval
    is well formed for the precision. *)
Definition lane_ok (precision : Z) (l : Z * (Z * Z)) : Prop :=
  register_in_range (fst l)
  /\ 0 <= fst (snd l) /\ 0 < snd (snd l)
  /\ fst (snd l) + snd (snd l) <= 2 ^ precision.

(** The peeked cumulative frequency of a lane lies in the lane's interval. *)
Definition peek_in_interval (precision : Z) (l : Z * (Z * Z)) : Prop :=
  fst (snd l) <= vrans.peek precision (fst l) < fst (snd l) + snd (snd l).










(** * The compression service

    [src/helpers/compressorModel.py], [app.py] and [reconstruct.py]: the
    singleton that holds the model, the two request handlers and the
    script that posts the compressed files.  Calls that leave these
    files (the model loader, the data loader, the two codec entry points,
    the file system) are recorded as they are made; what each of them
    answers is given from outside.  File names are strings of bytes: the
    separators ['.'] and ['/'] are single bytes that occur in no
    multi-byte UTF-8 character. *)

(** ** Python strings, paths and dictionaries *)

(** [s.split(sep)] for a one-character separator; the result is never
    empty. *)
Fixpoint split (sep : ascii) (s : string) : list string :=
  match s with
  | EmptyString => [EmptyString]
  | String c s' =>
      if Ascii.eqb c sep then EmptyString :: split sep s'
      else match split sep s' with
           | part :: parts => String c part :: parts
           | [] => [String c EmptyString]
           end
  end.

(** [s.endswith(c)] for one character *)
Fixpoint endswith (s : string) (c : ascii) : bool :=
  match s with
  | EmptyString => false
  | String c' EmptyString => Ascii.eqb c' c
  | String _ s' => endswith s' c
  end.

(** [os.path.basename(p)]: what follows the last slash. *)
Definition basename (p : string) : string :=
  last (split "/"%char p) EmptyString.

(** [os.path.join(a, b)] *)
Definition join (a b : string) : string :=
  match b with
  | String c _ =>
      if Ascii.eqb c "/"%char then b
      else if (a =? "")%string || endswith a "/"%char then (a ++ b)%string
      else (a ++ "/" ++ b)%string
  | EmptyString =>
      if (a =? "")%string || endswith a "/"%char then a
      else (a ++ "/")%string
  end.



(** A [dict] of strings, in insertion order. *)
Definition dict : Type := list (string * string).


(** [d[k]] *)
Fixpoint dict_get (d : dict) (k : string) : option string :=
  match d with
  | [] => None
  | (k', v') :: d' => if (k' =? k)%string then Some v' else dict_get d' k
  end.

(** [d.values()] *)
Definition values (d : dict) : list string := map snd d.

(** ** [reconstruct.py] *)

Module reconstruct_py.
Section Script.

(** The file system as the script sees it. *)
Variable listdir : string -> list string.
Variable isfile : string -> bool.

Definition hific_files : list string :=
  filter (fun f =>
            isfile (join "./compressed" f)
            && existsb (String.eqb (last (split "."%char f) EmptyString))
                 ["hfc"%string])
    (listdir "compressed").


End Script.
End reconstruct_py.

(** ** [compressorModel.py] *)

Module compressorModel.
Section Collaborators.

Variables Model Args Loader : Type.

(** The calls that leave the module, with their arguments. *)
Inductive call : Type :=
| mkdir (path : string)
| prepare_model (path log_dir : string)
| prepare_dataloader (args : Args) (dir output_dir : string)
| compress_and_save (model : Model) (args : Args) (loader : Loader)
    (output_dir : string)
| load_and_decompress (model : Model) (file output : string).

Definition PATH_TO_MODEL : string := "model/hific_low.pt".
Definition LOG_DIR : string := "logs".

(** The attributes of the class [_Compressor].  Its instances carry no
    attribute of their own, and at most one is ever created. *)
Record _Compressor : Type := mk_Compressor {
  _instance : option unit;
  model : option Model;
  args : option Args
}.

Definition initial : _Compressor := mk_Compressor None None None.

(** [Compressor()], given whether the log directory could be made and
    what the model loader answers: the class afterwards, the calls made,
    and the instance returned unless the call raised. *)
Definition Compressor (made : bool) (loaded : option (Model * Args))
    (cls : _Compressor) : _Compressor * list call * option unit :=
  match _instance cls with
  | None =>
      if made then
        let cls := mk_Compressor (Some tt) (model cls) (args cls) in
        match loaded with
        | Some (m, a) =>
            let cls := mk_Compressor (_instance cls) (Some m) (Some a) in
            (cls, [mkdir LOG_DIR; prepare_model PATH_TO_MODEL LOG_DIR],
             _instance cls)
        | None =>
            (cls, [mkdir LOG_DIR; prepare_model PATH_TO_MODEL LOG_DIR], None)
        end
      else (cls, [mkdir LOG_DIR], None)
  | Some self => (cls, [], Some self)
  end.

(** A run of calls of [Compressor()], one pair of answers per call. *)
Fixpoint Compressor_calls (answers : list (bool * option (Model * Args)))
    (cls : _Compressor) : _Compressor * list call * list (option unit) :=
  match answers with
  | [] => (cls, [], [])
  | (made, loaded) :: answers' =>
      let '(cls, calls, result) := Compressor made loaded cls in
      let '(cls, calls', results) := Compressor_calls answers' cls in
      (cls, calls ++ calls', result :: results)
  end.

(** [self.compress(dir)], given what the data loader and the codec
    answer. *)
Definition compress (cls : _Compressor) (loader : option Loader)
    (saved : bool) (dir : string) : list call * option unit :=
  let output_dir := (dir ++ "/compressed")%string in
  match args cls with
  | None => ([], None)
  | Some a =>
      match loader with
      | None => ([prepare_dataloader a dir output_dir], None)
      | Some l =>
          match model cls with
          | None => ([prepare_dataloader a dir output_dir], None)
          | Some m =>
              ([prepare_dataloader a dir output_dir;
                compress_and_save m a l output_dir],
               if saved then Some tt else None)
          end
      end
  end.

(** [self.reconstruct(file, output_dir)], given whether the codec
    succeeds. *)
Definition reconstruct (cls : _Compressor) (decompressed : bool)
    (file output_dir : string) : list call * option unit :=
  match model cls with
  | None => ([], None)
  | Some m =>
      ([load_and_decompress m file
          (output_dir ++ "/" ++ basename file ++ ".png")%string],
       if decompressed then Some tt else None)
  end.

End Collaborators.
End compressorModel.

(** ** [app.py] *)

Module app.
Section Handlers.

Variables Model Args Loader : Type.

(** What the codec answers for each file and directory. *)
Variable decompressed : string -> bool.
Variable loader : string -> option Loader.
Variable saved : string -> bool.

(** The [/compress] handler on the decoded request body. *)
Definition compress (cls : compressorModel._Compressor Model Args)
    (data : dict)
  : list (compressorModel.call Model Args Loader) * option string :=
  match dict_get data "dir" with
  | None => ([], None)
  | Some dir =>
      let '(calls, done) :=
        compressorModel.compress Model Args Loader cls (loader dir)
          (saved dir) dir in
      (calls,
       match done with
       | Some _ => Some "Compression completed."%string
       | None => None
       end)
  end.

(** The loop of the [/reconstruct] handler. *)
Fixpoint reconstruct_loop (cls : compressorModel._Compressor Model Args)
    (files : list string)
  : list (compressorModel.call Model Args Loader) * option unit :=
  match files with
  | [] => ([], Some tt)
  | file :: files' =>
      let '(calls, done) :=
        compressorModel.reconstruct Model Args Loader cls (decompressed file)
          file "reconstructed" in
      match done with
      | None => (calls, None)
      | Some _ =>
          let '(calls', done') := reconstruct_loop cls files' in
          (calls ++ calls', done')
      end
  end.

(** The [/reconstruct] handler on the decoded request body. *)
Definition reconstruct (cls : compressorModel._Compressor Model Args)
    (data : dict)
  : list (compressorModel.call Model Args Loader) * option string :=
  let '(calls, done) := reconstruct_loop cls (values data) in
  (calls,
   match done with
   | Some _ => Some "Reconstruction completed."%string
   | None => None
   end).

End Handlers.
End app.



(** * Properties *)

(** ** Broadcasting of equal shapes *)

Lemma broadcast_rev_same (s : list nat) : broadcast_rev s s = Some s.
Proof.
  induction s as [|n s IH]; [reflexivity|].
  cbn [broadcast_rev]. rewrite IH, Nat.eqb_refl. reflexivity.
Qed.

Lemma broadcast_shapes_same (s : list nat) : broadcast_shapes s s = Some s.
Proof.
  unfold broadcast_shapes. rewrite broadcast_rev_same, rev_involutive.
  reflexivity.
Qed.

Lemma flat_map_chunks {A} (f : list A -> list A) (k n : nat) (cells : list A) :
  (forall c, length c = k -> f c = c) ->
  length cells = (n * k)%nat ->
  flat_map (fun i => f (firstn k (skipn (i * k) cells))) (seq 0 n) = cells.
Proof.
  intros Hf. revert cells. induction n as [|n IH]; intros cells Hlen.
  - destruct cells; [reflexivity | discriminate].
  - cbn [seq flat_map Nat.mul skipn].
    rewrite Hf by (rewrite length_firstn; lia).
    rewrite <- seq_shift, flat_map_concat_map, map_map.
    rewrite <- flat_map_concat_map.
    rewrite (flat_map_ext _
               (fun i => f (firstn k (skipn (i * k) (skipn k cells))))).
    + rewrite IH by (rewrite length_skipn; lia). apply firstn_skipn.
    + intros i. rewrite skipn_skipn. do 3 f_equal. lia.
Qed.

Lemma broadcast_cells_same {A} (s : list nat) (cells : list A) :
  length cells = size s -> broadcast_cells s s cells = cells.
Proof.
  revert cells. induction s as [|n s IH]; intros cells Hlen; [reflexivity|].
  cbn [broadcast_cells]. rewrite Nat.eqb_refl.
  apply (flat_map_chunks (broadcast_cells s s)); [exact IH | exact Hlen].
Qed.

Lemma broadcast_to_same {A} (a : ndarray A) :
  well_shaped a -> broadcast_to (shape a) a = data a.
Proof.
  intros H. unfold broadcast_to. rewrite Nat.sub_diag. cbn [repeat app].
  apply broadcast_cells_same. exact H.
Qed.

(** Operands of one shape meet cell by cell. *)
Lemma broadcast2_same (a b : ndarray Z) :
  shape b = shape a -> well_shaped a -> well_shaped b ->
  broadcast2 a b = Some (shape a, combine (data a) (data b)).
Proof.
  intros Hshape Ha Hb. unfold broadcast2.
  rewrite Hshape, broadcast_shapes_same.
  rewrite (broadcast_to_same a Ha).
  rewrite <- Hshape, (broadcast_to_same b Hb). reflexivity.
Qed.

(** The check of [pop] on three arrays of one shape. *)
Lemma interval_holds_cells (sh : list nat) (ss fs cs : list Z) :
  length ss = size sh -> length fs = size sh -> length cs = size sh ->
  interval_holds (mk_ndarray sh ss) (mk_ndarray sh fs) (mk_ndarray sh cs)
  = Some (forallb (fun sc => fst sc <=? snd sc) (combine ss cs)
          && forallb (fun cu => fst cu <? snd cu)
               (combine cs (map (fun sf => fst sf + snd sf) (combine ss fs)))).
Proof.
  intros Hs Hf Hc. unfold interval_holds, np_all2, np_add.
  rewrite !broadcast2_same by (try reflexivity; exact Hs || exact Hf || exact Hc).
  cbn [shape data].
  destruct (forallb _ (combine ss cs)); [|reflexivity].
  rewrite broadcast2_same;
    [reflexivity | reflexivity | exact Hc |].
  unfold well_shaped. cbn [data shape].
  rewrite length_map, length_combine. lia.
Qed.

Lemma interval_holds_scalar (s f c : Z) :
  interval_holds (scalar s) (scalar f) (scalar c)
  = Some ((s <=? c) && (c <? s + f)).
Proof.
  unfold scalar. rewrite interval_holds_cells by reflexivity.
  cbn [combine map forallb fst snd]. rewrite !andb_true_r. reflexivity.
Qed.

(** ** Sequences and the binary search *)

Lemma nondecreasingb_step (row : list Z) (i : nat) :
  nondecreasingb row = true -> (S i < length row)%nat ->
  nth i row 0 <= nth (S i) row 0.
Proof.
  revert i. induction row as [|a [|b rest] IH]; intros i Hs Hi; simpl in Hi; try lia.
  simpl in Hs. apply andb_true_iff in Hs. destruct Hs as [Hab Hrest].
  destruct i as [|i].
  - simpl. lia.
  - change (nth (S i) (a :: b :: rest) 0) with (nth i (b :: rest) 0).
    change (nth (S (S i)) (a :: b :: rest) 0) with (nth (S i) (b :: rest) 0).
    apply IH; [exact Hrest | simpl; lia].
Qed.

Lemma nondecreasingb_nth (row : list Z) (i j : nat) :
  nondecreasingb row = true -> (i <= j < length row)%nat ->
  nth i row 0 <= nth j row 0.
Proof.
  intros Hs [Hij Hj]. induction Hij as [|j Hij IH].
  - lia.
  - specialize (IH ltac:(lia)).
    pose proof (nondecreasingb_step row j Hs Hj). lia.
Qed.

Lemma binsearch_right_step (a : list Z) (key : Z) (fuel lo hi : nat) :
  binsearch_right (S fuel) a key lo hi =
  if (lo <? hi)%nat then
    if nth (lo + (hi - lo) / 2) a 0 <=? key
    then binsearch_right fuel a key (S (lo + (hi - lo) / 2)) hi
    else binsearch_right fuel a key lo (lo + (hi - lo) / 2)
  else lo.
Proof. reflexivity. Qed.

Lemma binsearch_right_spec (a : list Z) (key : Z) (fuel lo hi : nat) :
  nondecreasingb a = true ->
  (lo <= hi <= length a)%nat -> (hi - lo <= fuel)%nat ->
  (forall i, (i < lo)%nat -> nth i a 0 <= key) ->
  (forall i, (hi <= i < length a)%nat -> key < nth i a 0) ->
  (lo <= binsearch_right fuel a key lo hi <= hi)%nat
  /\ (forall i, (i < binsearch_right fuel a key lo hi)%nat -> nth i a 0 <= key)
  /\ (forall i, (binsearch_right fuel a key lo hi <= i < length a)%nat ->
        key < nth i a 0).
Proof.
  intros Hs. revert lo hi.
  induction fuel as [|fuel IH]; intros lo hi Hb Hf Hlo Hhi.
  - simpl. assert (lo = hi) by lia. subst hi. repeat split; auto; lia.
  - rewrite binsearch_right_step.
    destruct (lo <? hi)%nat eqn:Hlt.
    + apply Nat.ltb_lt in Hlt.
      pose proof (Nat.div_mod_eq (hi - lo) 2) as Hd.
      pose proof (Nat.mod_upper_bound (hi - lo) 2 ltac:(lia)) as Hm.
      set (mid := (lo + (hi - lo) / 2)%nat) in *.
      assert (Hmid : (lo <= mid < hi)%nat) by (subst mid; lia).
      clearbody mid. clear Hd Hm.
      destruct (nth mid a 0 <=? key) eqn:Hk.
      * apply Z.leb_le in Hk.
        destruct (IH (S mid) hi) as (H1 & H2 & H3); try lia; auto.
        { intros i Hi.
          pose proof (nondecreasingb_nth a i mid Hs ltac:(lia)). lia. }
        repeat split; auto; lia.
      * apply Z.leb_gt in Hk.
        destruct (IH lo mid) as (H1 & H2 & H3); try lia; auto.
        { intros i Hi.
          pose proof (nondecreasingb_nth a mid i Hs ltac:(lia)). lia. }
        repeat split; auto; lia.
    + apply Nat.ltb_ge in Hlt. assert (lo = hi) by lia. subst hi.
      repeat split; auto; lia.
Qed.

(** On a row that does not decrease and starts at or below the key, the
    search points just past the rightmost entry at most the key. *)
Lemma searchsorted_right_rightmost (row : list Z) (key : Z) :
  nondecreasingb row = true -> row <> [] -> nth 0 row 0 <= key ->
  rightmost_le row key (searchsorted_right row key - 1).
Proof.
  intros Hs Hne H0. unfold searchsorted_right.
  assert (Hspec := binsearch_right_spec row key (length row) 0 (length row) Hs).
  destruct Hspec as (H1 & H2 & H3); try (intros; lia).
  set (r := binsearch_right (length row) row key 0 (length row)) in *.
  assert (Hr : (0 < r)%nat).
  { destruct r as [|r]; [|lia].
    assert (key < nth 0 row 0); [|lia].
    apply H3. destruct row; [congruence | simpl; lia]. }
  unfold rightmost_le. repeat split; try lia.
  - replace (Z.to_nat (Z.of_nat r - 1)) with (r - 1)%nat by lia.
    apply H2. lia.
  - intros j Hj. apply H3. lia.
Qed.

Lemma rightmost_le_unique (row : list Z) (key i j : Z) :
  rightmost_le row key i -> rightmost_le row key j -> i = j.
Proof.
  intros (Hi & Hik & Hiu) (Hj & Hjk & Hju).
  destruct (Z.lt_trichotomy i j) as [H | [H | H]]; auto.
  - specialize (Hiu j ltac:(lia)). lia.
  - specialize (Hju i ltac:(lia)). lia.
Qed.

Lemma shape_eqb_eq (s1 s2 : list nat) : shape_eqb s1 s2 = true <-> s1 = s2.
Proof.
  unfold shape_eqb. split.
  - revert s2. induction s1 as [|a s1 IH]; intros [|b s2] H; simpl in H;
      try discriminate; auto.
    apply andb_true_iff in H. destruct H as [Hl H].
    apply andb_true_iff in H. destruct H as [Hab H].
    apply Nat.eqb_eq in Hab. subst b. f_equal. apply IH.
    rewrite Hl. exact H.
  - intros <-. induction s1 as [|a s1 IH]; simpl; auto.
    apply andb_true_iff in IH. destruct IH as [Hl H].
    simpl in Hl. rewrite Hl, Nat.eqb_refl, H. reflexivity.
Qed.

Lemma nth_error_map_combine {A B C} (f : A * B -> C) (xs : list A)
    (ys : list B) (k : nat) (x : A) (y : B) :
  nth_error xs k = Some x -> nth_error ys k = Some y ->
  nth_error (map f (combine xs ys)) k = Some (f (x, y)).
Proof.
  revert ys k. induction xs as [|a xs IH]; intros [|b ys] [|k] Hx Hy;
    simpl in *; try discriminate.
  - congruence.
  - apply IH; assumption.
Qed.

Lemma py_index_last {A} (xs : list A) (x : A) :
  py_index xs (-1) = Some x -> xs <> [] /\ nth_error xs (length xs - 1) = Some x.
Proof.
  unfold py_index.
  replace ((0 <=? -1) && (-1 <? Z.of_nat (length xs))) with false by reflexivity.
  destruct ((- Z.of_nat (length xs) <=? -1) && (-1 <? 0)) eqn:H1; [|discriminate].
  apply andb_true_iff in H1. destruct H1 as [H1 _]. apply Z.leb_le in H1.
  replace (Z.to_nat (Z.of_nat (length xs) + -1)) with (length xs - 1)%nat by lia.
  intros H. split; [|exact H]. intros ->. simpl in H1. lia.
Qed.

(** ** Construction of a codec *)

(** C7.  Constructing a codec emits the accuracy warning exactly when the
    precision is 24 or more (so at 24 and not at 23); the warning is not
    an abort: the codec is returned all the same and its [push] is the one
    derived from the lookups, whatever the precision. *)
Theorem base_codec_warns_from_24 :
  forall enc_statfun dec_statfun precision,
    (24 <= precision ->
     snd (base_codec enc_statfun dec_statfun precision) = [precision_warning])
    /\ (precision < 24 ->
        snd (base_codec enc_statfun dec_statfun precision) = [])
    /\ snd (base_codec enc_statfun dec_statfun 24) = [precision_warning]
    /\ snd (base_codec enc_statfun dec_statfun 23) = []
    /\ forall message symbol,
         push (fst (base_codec enc_statfun dec_statfun precision)) message symbol
         = match enc_statfun symbol with
           | Some (start, freq) => vrans.push message start freq precision
           | None => None
           end.
Proof.
  intros enc dec precision. unfold base_codec. simpl.
  repeat split.
  - intros H. apply Z.leb_le in H. rewrite H. reflexivity.
  - intros H. apply Z.leb_gt in H. rewrite H. reflexivity.
Qed.

Lemma base_codec_warns_from_24_witness :
  snd (base_codec (_indexed_cdf_to_enc_statfun [0; 1])
         (fun cf => Some cf) 30) = [precision_warning]
  /\ snd (base_codec (_indexed_cdf_to_enc_statfun [0; 1])
            (fun cf => Some cf) 16) = [].
Proof.
  split.
  - apply (proj1 (base_codec_warns_from_24
                    (_indexed_cdf_to_enc_statfun [0; 1]) (fun cf => Some cf) 30)).
    lia.
  - apply (proj1 (proj2 (base_codec_warns_from_24
                    (_indexed_cdf_to_enc_statfun [0; 1]) (fun cf => Some cf) 16))).
    lia.
Defined.

(** ** The escape mapping *)

(** The scalar encoder computes the escape mapping as specified. *)
Lemma clamp_spec (value max_value : Z) :
  (0 <= value < max_value -> clamp value max_value = (0, value))
  /\ (value < 0 ->
      clamp value max_value = (wrap_int64 (-2 * value - 1), max_value))
  /\ (0 <= value -> max_value <= value ->
      clamp value max_value
      = (wrap_int64 (2 * (value - max_value)), max_value)).
Proof.
  unfold clamp. repeat split; intros.
  - destruct (value <? 0) eqn:H1; [lia|].
    destruct (value >=? max_value) eqn:H2; [lia|]. reflexivity.
  - destruct (value <? 0) eqn:H1; [reflexivity|lia].
  - destruct (value <? 0) eqn:H1; [lia|].
    destruct (value >=? max_value) eqn:H2; [reflexivity|lia].
Qed.

(** C4.  At shifted value -1 on a row with [max_value = 10] the scalar
    encoder computes the overflow [-2v - 1 = 1]; the vectorised encoder
    clamps the value to the escape bin as well, but its second masked
    update runs on the value already clamped and overwrites the overflow
    with 0, and so it does for every negative shifted value. *)
Theorem vec_clamp_loses_negative_overflow :
  clamp (-1) 10 = (1, 10)
  /\ vec_clamp (-1) 10 = (0, 10)
  /\ (forall value max_value,
        value < 0 -> 0 <= max_value -> vec_clamp value max_value = (0, max_value))
  /\ (forall value max_value,
        0 <= value -> 0 <= max_value ->
        vec_clamp value max_value = clamp value max_value).
Proof.
  split; [reflexivity|]. split; [reflexivity|]. split.
  - intros value max_value Hv Hm. unfold vec_clamp.
    destruct (value <? 0) eqn:H1; [|lia].
    destruct (max_value >=? max_value) eqn:H2; [|lia].
    rewrite Z.sub_diag. reflexivity.
  - intros value max_value Hv Hm. unfold vec_clamp, clamp.
    destruct (value <? 0) eqn:H1; [lia|].
    destruct (value >=? max_value); reflexivity.
Qed.

Lemma vec_clamp_loses_negative_overflow_witness :
  vec_clamp (-3) 10 = (0, 10) /\ vec_clamp 11 10 = clamp 11 10.
Proof.
  destruct vec_clamp_loses_negative_overflow as (_ & _ & Hneg & Hpos).
  split.
  - apply Hneg; lia.
  - apply Hpos; lia.
Defined.

(** ** Loops *)

Lemma for_each_invariant {St A} (P : St -> Prop)
    (body : St -> A -> option St) (xs : list A) (st st' : St) :
  (forall s x s', In x xs -> body s x = Some s' -> P s -> P s') ->
  for_each body xs st = Some st' -> P st -> P st'.
Proof.
  revert st. induction xs as [|x xs IH]; intros st Hbody Hrun Hst; simpl in Hrun.
  - congruence.
  - destruct (body st x) as [s1|] eqn:Hs1; [|discriminate].
    apply (IH s1); auto.
    + intros s y s' Hy. apply Hbody. right. exact Hy.
    + apply (Hbody st x s1); auto. left. reflexivity.
Qed.

Lemma for_each_app {St A} (body : St -> A -> option St) (xs ys : list A)
    (st : St) :
  for_each body (xs ++ ys) st =
  match for_each body xs st with
  | Some st' => for_each body ys st'
  | None => None
  end.
Proof.
  revert st. induction xs as [|x xs IH]; intros st; simpl; auto.
  destruct (body st x); auto.
Qed.

Lemma list_set_length {A} (xs ys : list A) (i : nat) (v : A) :
  list_set xs i v = Some ys -> length ys = length xs.
Proof.
  revert ys i. induction xs as [|x xs IH]; intros ys [|i] H; simpl in H;
    try discriminate.
  - injection H as <-. reflexivity.
  - destruct (list_set xs i v) as [zs|] eqn:Hz; [|discriminate].
    injection H as <-. simpl. f_equal. eapply IH; eauto.
Qed.

Lemma size_singleton (n : nat) : size [n] = n.
Proof. simpl. apply Nat.mul_1_r. Qed.

(** ** Shapes of the scalar orchestrator's results *)

(** C8.  Scalar encode codes the cells of the symbol and index tensors as
    one flat sequence (the bitstream is the one of the flattened tensors)
    and returns as coding shape the shape of the symbol tensor without its
    leading axis, [symbols.shape[1:]]. *)
Theorem encoder_coding_shape_is_trailing_shape :
  forall symbols indices cdf cdf_length cdf_offset precision overflow_width
         encoded coding_shape,
    ans_index_encoder symbols indices cdf cdf_length cdf_offset precision
      overflow_width = Some (encoded, coding_shape) ->
    coding_shape = tl (shape symbols)
    /\ ans_index_encoder (flatten symbols) (flatten indices) cdf cdf_length
         cdf_offset precision overflow_width = Some (encoded, []).
Proof.
  intros symbols indices cdf cdf_length cdf_offset precision overflow_width
    encoded coding_shape.
  unfold ans_index_encoder, flatten, astype_int32, len. simpl.
  rewrite !Nat.mul_1_r.
  destruct (overflow_codec overflow_width); [|discriminate].
  destruct (for_each _ _ _) as [message|]; [|discriminate].
  intros H. injection H as <- <-. split; reflexivity.
Qed.

Lemma encoder_coding_shape_is_trailing_shape_witness :
  ans_index_encoder (flatten grid_symbols) (flatten grid_positions)
    mass16_table [4] [0] 16 OVERFLOW_WIDTH
  = Some ([32769; 0; 196608; 0], []).
Proof.
  apply (encoder_coding_shape_is_trailing_shape grid_symbols grid_positions
           mass16_table [4] [0] 16 OVERFLOW_WIDTH
           [32769; 0; 196608; 0] [3%nat]).
  vm_compute. reflexivity.
Defined.

(** The coding shape returned for a 2 x 3 symbol tensor is [(3,)], not the
    tensor's shape [(2, 3)]. *)
Lemma coding_shape_is_not_original_shape :
  option_map snd
    (ans_index_encoder grid_symbols grid_positions mass16_table [4] [0] 16
       OVERFLOW_WIDTH) = Some [3%nat]
  /\ [3%nat] <> shape grid_symbols.
Proof.
  split; [vm_compute; reflexivity | discriminate].
Qed.

Lemma decode_step_shape indices cdf cdf_length cdf_offset precision
    (st st' : vrans.message * ndarray float64) (i : nat) :
  decode_step indices cdf cdf_length cdf_offset precision st i = Some st' ->
  shape (snd st') = shape (snd st)
  /\ length (data (snd st')) = length (data (snd st)).
Proof.
  destruct st as [message decoded]. unfold decode_step.
  repeat match goal with
         | |- context [match ?e with Some _ => _ | None => _ end] =>
             destruct e eqn:?; try discriminate
         | |- context [if ?b then _ else _] =>
             destruct b eqn:?; try discriminate
         | |- context [let '(_, _) := ?p in _] => destruct p eqn:?
         end;
    unfold setitem in *;
    repeat match goal with
           | H : match ?e with Some _ => _ | None => _ end = Some _ |- _ =>
               destruct e eqn:?; try discriminate
           | H : Some _ = Some _ |- _ => injection H as <-
           end;
    intros H; injection H as <-; simpl; split; auto;
    eapply list_set_length; eauto.
Qed.

(** C10.  Whenever scalar decode returns, the result is a float64 array
    of one dimension whose length is the number of index positions; the
    [coding_shape] argument has no influence on it. *)
Theorem decoder_returns_flat_float_array :
  forall encoded indices cdf cdf_length cdf_offset precision coding_shape
         overflow_width (decoded : ndarray float64),
    ans_index_decoder encoded indices cdf cdf_length cdf_offset precision
      coding_shape overflow_width = Some decoded ->
    shape decoded = [size (shape indices)]
    /\ length (data decoded) = size (shape indices)
    /\ forall coding_shape',
         ans_index_decoder encoded indices cdf cdf_length cdf_offset precision
           coding_shape' overflow_width = Some decoded.
Proof.
  intros encoded indices cdf cdf_length cdf_offset precision coding_shape
    overflow_width decoded Hdec.
  split; [|split]; [| |intros coding_shape'; exact Hdec].
  - unfold ans_index_decoder in Hdec.
    destruct (vrans.unflatten_scalar encoded) as [message|]; [|discriminate].
    destruct (overflow_codec overflow_width); [|discriminate].
    destruct (for_each _ _ _) as [[m d]|] eqn:Hloop; [|discriminate].
    injection Hdec as <-.
    apply (for_each_invariant
             (fun st => shape (snd st) = [size (shape indices)])) in Hloop;
      auto.
    intros s x s' _ Hs Hp. apply decode_step_shape in Hs.
    destruct Hs as [Hs _]. congruence.
  - unfold ans_index_decoder in Hdec.
    destruct (vrans.unflatten_scalar encoded) as [message|]; [|discriminate].
    destruct (overflow_codec overflow_width); [|discriminate].
    destruct (for_each _ _ _) as [[m d]|] eqn:Hloop; [|discriminate].
    injection Hdec as <-.
    apply (for_each_invariant
             (fun st => length (data (snd st)) = size (shape indices)))
      in Hloop; auto.
    + intros s x s' _ Hs Hp. apply decode_step_shape in Hs.
      destruct Hs as [_ Hs]. congruence.
    + simpl. apply repeat_length.
Qed.

Lemma decoder_returns_flat_float_array_witness :
  shape (mk_ndarray [6%nat] (floats [0; 0; 0; 1; 0; 0])) = [6%nat]
  /\ ans_index_decoder [32769; 0; 196608; 0] grid_positions mass16_table [4]
       [0] 16 [7%nat; 7%nat] OVERFLOW_WIDTH
     = Some (mk_ndarray [6%nat] (floats [0; 0; 0; 1; 0; 0])).
Proof.
  destruct (decoder_returns_flat_float_array [32769; 0; 196608; 0]
              grid_positions mass16_table [4] [0] 16 [3%nat] OVERFLOW_WIDTH
              (mk_ndarray [6%nat] (floats [0; 0; 0; 1; 0; 0])))
    as (Hshape & _ & Hany).
  - vm_compute. reflexivity.
  - split; [exact Hshape | apply Hany].
Defined.

(** ** The stack coder: one lane *)

Lemma lor_shiftl_low (a b n : Z) :
  0 <= n -> 0 <= b < 2 ^ n -> Z.lor (Z.shiftl a n) b = a * 2 ^ n + b.
Proof.
  intros Hn Hb.
  rewrite <- (Z.shiftl_mul_pow2 a n Hn).
  rewrite <- Z.add_lor_land.
  assert (Hl : Z.land (Z.shiftl a n) b = 0).
  { apply Z.bits_inj'. intros i Hi. rewrite Z.land_spec, Z.bits_0.
    destruct (Z.lt_ge_cases i n) as [Hlt | Hge].
    - rewrite Z.shiftl_spec_low by assumption. reflexivity.
    - rewrite <- (Z.mod_small b (2 ^ n)) by assumption.
      rewrite Z.mod_pow2_bits_high by lia. apply andb_false_r. }
  rewrite Hl. lia.
Qed.

Lemma peek_mod (p h : Z) : 0 <= p -> vrans.peek p h = h mod 2 ^ p.
Proof.
  intros Hp. unfold vrans.peek. rewrite Z.shiftl_1_l.
  replace (2 ^ p - 1) with (Z.ones p) by (rewrite Z.ones_equiv; lia).
  apply Z.land_ones. exact Hp.
Qed.

(** The arithmetic core: [x], with quotient and remainder by [f], is
    folded into [(x / f) * P + x mod f + s] and recovered from it. *)
Lemma fold_unfold (P x s f : Z) :
  0 < P -> 0 <= x -> 0 <= s -> 0 < f -> s + f <= P ->
  ((x / f) * P + x mod f + s) mod P = x mod f + s
  /\ ((x / f) * P + x mod f + s) / P = x / f.
Proof.
  intros HP Hx Hs Hf Hsf.
  pose proof (Z.mod_pos_bound x f Hf) as Hr.
  split.
  - rewrite <- Z.add_assoc, Z.add_comm, Z.mod_add by lia.
    apply Z.mod_small. lia.
  - rewrite <- Z.add_assoc, Z.add_comm, Z.div_add by lia.
    rewrite Z.div_small by lia. lia.
Qed.

Lemma push_lane_spec (p h s f : Z) :
  0 <= p <= 31 -> register_in_range h ->
  0 <= s -> 0 < f -> s + f <= 2 ^ p ->
  exists h' spilled,
    vrans.push_lane p (h, (s, f)) = (h', spilled)
    /\ register_in_range h'
    /\ s <= vrans.peek p h' < s + f
    /\ forall words,
         vrans.refill [vrans.pop_lane p (h', (s, f))] (spilled ++ words)
         = Some ([h], words).
Proof.
  intros Hp [Hlo Hhi] Hs Hf Hsf.
  change vrans.rans_l with (2 ^ 31) in Hlo.
  set (P := 2 ^ p) in *. set (K := 2 ^ (31 - p)).
  assert (HP : 0 < P) by (apply Z.pow_pos_nonneg; lia).
  assert (HK : 0 < K) by (apply Z.pow_pos_nonneg; lia).
  assert (HKP : K * P = 2 ^ 31).
  { unfold K, P. rewrite <- Z.pow_add_r by lia. f_equal. lia. }
  assert (HT : Z.shiftl (Z.shiftr vrans.rans_l p) 32 = K * 2 ^ 32).
  { rewrite Z.shiftl_mul_pow2 by lia. f_equal.
    rewrite Z.shiftr_div_pow2 by lia. change vrans.rans_l with (2 ^ 31).
    unfold K. rewrite Z.pow_sub_r by lia. reflexivity. }
  (* what remains in the register once the low word is spilled, if it is *)
  assert (Hcore : forall x, K * f <= x -> x < K * 2 ^ 32 * f -> x < 2 ^ 63 ->
            let x' := (x / f) * P + x mod f + s in
            register_in_range x' /\ x' mod P = x mod f + s /\ x' / P = x / f).
  { intros x Hx1 Hx2 Hx3 x'.
    assert (Hx0 : 0 <= x) by nia.
    destruct (fold_unfold P x s f HP Hx0 Hs Hf Hsf) as [Hm Hq].
    pose proof (Z.mod_pos_bound x f Hf) as Hr.
    assert (HqK : K <= x / f) by (apply Z.div_le_lower_bound; lia).
    assert (Hq2 : x / f < K * 2 ^ 32) by (apply Z.div_lt_upper_bound; lia).
    split; [|split; assumption].
    unfold register_in_range. change vrans.rans_l with (2 ^ 31).
    subst x'. split; [nia|].
    assert (x / f * P + P <= K * 2 ^ 32 * P) by nia.
    replace (2 ^ 63) with (2 ^ 31 * 2 ^ 32) by reflexivity. nia. }
  unfold vrans.push_lane. rewrite HT.
  destruct (K * 2 ^ 32 * f <=? h) eqn:Hspill.
  - apply Z.leb_le in Hspill.
    rewrite (Z.shiftr_div_pow2 h 32) by lia.
    set (x := h / 2 ^ 32).
    assert (Hx1 : K * f <= x).
    { unfold x. apply Z.div_le_lower_bound; lia. }
    assert (Hx3 : x < 2 ^ 31).
    { unfold x. apply Z.div_lt_upper_bound; [lia|].
      replace (2 ^ 32 * 2 ^ 31) with (2 ^ 63) by reflexivity. lia. }
    assert (Hx2 : x < K * 2 ^ 32 * f) by nia.
    destruct (Hcore x Hx1 Hx2 ltac:(lia)) as ([Hr1 Hr2] & Hm & Hq).
    rewrite Z.shiftl_mul_pow2 by lia. fold P.
    set (x' := x / f * P + x mod f + s) in *.
    assert (Hu : vrans.uint64 x' = x').
    { unfold vrans.uint64. apply Z.mod_small.
      change vrans.rans_l with (2 ^ 31) in Hr1. lia. }
    exists x', [vrans.uint32 h]. rewrite Hu.
    split; [reflexivity|]. split; [split; assumption|].
    rewrite peek_mod by lia. fold P. rewrite Hm.
    pose proof (Z.mod_pos_bound x f Hf) as Hr.
    split; [lia|].
    intros words. unfold vrans.pop_lane.
    rewrite peek_mod by lia. rewrite Z.shiftr_div_pow2 by lia. fold P.
    rewrite Hm, Hq.
    replace (f * (x / f) + (x mod f + s) - s) with x
      by (pose proof (Z.div_mod x f ltac:(lia)); lia).
    assert (Hux : vrans.uint64 x = x).
    { unfold vrans.uint64. apply Z.mod_small. nia. }
    rewrite Hux. cbn [vrans.refill app].
    replace (x <? vrans.rans_l) with true
      by (symmetry; apply Z.ltb_lt; change vrans.rans_l with (2 ^ 31); lia).
    unfold vrans.uint32.
    rewrite lor_shiftl_low
      by (try lia; apply Z.mod_pos_bound; lia).
    unfold x. pose proof (Z.div_mod h (2 ^ 32) ltac:(lia)).
    replace (h / 2 ^ 32 * 2 ^ 32 + h mod 2 ^ 32) with h by lia. reflexivity.
  - apply Z.leb_gt in Hspill.
    assert (Hx1 : K * f <= h) by nia.
    destruct (Hcore h Hx1 Hspill Hhi) as ([Hr1 Hr2] & Hm & Hq).
    rewrite Z.shiftl_mul_pow2 by lia. fold P.
    set (x' := h / f * P + h mod f + s) in *.
    assert (Hu : vrans.uint64 x' = x').
    { unfold vrans.uint64. apply Z.mod_small.
      change vrans.rans_l with (2 ^ 31) in Hr1. lia. }
    exists x', []. rewrite Hu.
    split; [reflexivity|]. split; [split; assumption|].
    rewrite peek_mod by lia. fold P. rewrite Hm.
    pose proof (Z.mod_pos_bound h f Hf) as Hr.
    split; [lia|].
    intros words. unfold vrans.pop_lane.
    rewrite peek_mod by lia. rewrite Z.shiftr_div_pow2 by lia. fold P.
    rewrite Hm, Hq.
    replace (f * (h / f) + (h mod f + s) - s) with h
      by (pose proof (Z.div_mod h f ltac:(lia)); lia).
    assert (Hux : vrans.uint64 h = h).
    { unfold vrans.uint64. apply Z.mod_small. lia. }
    rewrite Hux. cbn [vrans.refill app].
    replace (h <? vrans.rans_l) with false
      by (symmetry; apply Z.ltb_ge; change vrans.rans_l with (2 ^ 31); lia).
    reflexivity.
Qed.

Lemma scalar_push_pop (p h s f : Z) (words : list Z) (sh1 sh2 : list nat) :
  0 <= p <= 31 -> register_in_range h ->
  0 <= s -> 0 < f -> s + f <= 2 ^ p ->
  exists h' words',
    vrans.push (scalar_message h words) (mk_ndarray sh1 [s])
      (mk_ndarray sh2 [f]) p = Some (scalar_message h' words')
    /\ register_in_range h'
    /\ fst (vrans.pop (scalar_message h' words') p)
       = mk_ndarray [] [vrans.peek p h']
    /\ s <= vrans.peek p h' < s + f
    /\ forall sh3 sh4,
         snd (vrans.pop (scalar_message h' words') p) (mk_ndarray sh3 [s])
           (mk_ndarray sh4 [f]) = Some (scalar_message h words).
Proof.
  intros Hp Hh Hs Hf Hsf.
  destruct (push_lane_spec p h s f Hp Hh Hs Hf Hsf)
    as (h' & spilled & Hpush & Hh' & Hpeek & Hpop).
  exists h', (spilled ++ words).
  split; [|split; [exact Hh'|split; [reflexivity|split; [exact Hpeek|]]]].
  - unfold vrans.push, scalar_message, vrans.same_lanes, vrans.lanes,
      vrans.valid_interval.
    cbn [data shape vrans.head vrans.tail length combine map flat_map fst snd
         forallb Nat.eqb andb].
    rewrite Z.shiftl_1_l.
    replace (0 <=? s) with true by (symmetry; apply Z.leb_le; lia).
    replace (0 <? f) with true by (symmetry; apply Z.ltb_lt; lia).
    replace (s + f <=? 2 ^ p) with true by (symmetry; apply Z.leb_le; lia).
    cbn [andb]. rewrite Hpush. cbn [fst snd app]. rewrite app_nil_r.
    reflexivity.
  - intros sh3 sh4.
    unfold vrans.pop, scalar_message, vrans.same_lanes, vrans.lanes.
    cbn [data shape vrans.head vrans.tail length combine map fst snd
         Nat.eqb andb].
    rewrite Hpop. reflexivity.
Qed.

(** ** Rows of the table *)

Lemma py_index_nth_error {A} (xs : list A) (i : Z) :
  0 <= i < Z.of_nat (length xs) -> py_index xs i = nth_error xs (Z.to_nat i).
Proof.
  intros Hi. unfold py_index.
  replace ((0 <=? i) && (i <? Z.of_nat (length xs))) with true; [reflexivity|].
  symmetry. apply andb_true_iff. split; [apply Z.leb_le | apply Z.ltb_lt]; lia.
Qed.

Lemma py_index_nth (xs : list Z) (i : Z) :
  0 <= i < Z.of_nat (length xs) -> py_index xs i = Some (nth (Z.to_nat i) xs 0).
Proof.
  intros Hi. rewrite py_index_nth_error by exact Hi.
  apply nth_error_nth'. lia.
Qed.

Lemma py_index_nonneg_inv {A} (xs : list A) (i : Z) (x : A) :
  0 <= i -> py_index xs i = Some x ->
  nth_error xs (Z.to_nat i) = Some x /\ i < Z.of_nat (length xs).
Proof.
  intros Hi. unfold py_index.
  destruct ((0 <=? i) && (i <? Z.of_nat (length xs))) eqn:H1.
  - apply andb_true_iff in H1. destruct H1 as [_ H1]. apply Z.ltb_lt in H1.
    auto.
  - destruct ((- Z.of_nat (length xs) <=? i) && (i <? 0)) eqn:H2;
      [|discriminate].
    apply andb_true_iff in H2. destruct H2 as [_ H2]. apply Z.ltb_lt in H2.
    lia.
Qed.

Lemma py_slice_to_firstn {A} (xs : list A) (l : Z) :
  0 <= l -> py_slice_to xs l = firstn (Z.to_nat l) xs.
Proof.
  intros Hl. unfold py_slice_to.
  replace (l <? 0) with false by (symmetry; apply Z.ltb_ge; lia).
  reflexivity.
Qed.

Lemma nth_error_combine {A B} (xs : list A) (ys : list B) (k : nat) x y :
  nth_error xs k = Some x -> nth_error ys k = Some y ->
  nth_error (combine xs ys) k = Some (x, y).
Proof.
  intros Hx Hy.
  rewrite <- (map_id (combine xs ys)).
  apply (nth_error_map_combine (fun xy => xy)); assumption.
Qed.

(** What [cdf_row_ok] gives on the row cut to its declared length. *)
Lemma cdf_row_ok_facts (precision : Z) (row : list Z) (l : Z) :
  cdf_row_ok precision row l = true ->
  let cut := py_slice_to row l in
  2 <= l <= Z.of_nat (length row)
  /\ Z.of_nat (length cut) = l
  /\ nondecreasingb cut = true
  /\ (forall i, (i < Z.to_nat l)%nat -> nth i cut 0 = nth i row 0)
  /\ nth 0 row 0 = 0
  /\ nth (Z.to_nat (l - 1)) row 0 = 2 ^ precision
  /\ py_index cut (-1) = Some (2 ^ precision).
Proof.
  unfold cdf_row_ok. intros H.
  repeat (apply andb_true_iff in H; destruct H as [H ?]).
  apply Z.leb_le in H. apply Z.leb_le in H3. apply Z.eqb_eq in H2.
  apply Z.eqb_eq in H0.
  cbv zeta. rewrite py_slice_to_firstn in * by lia.
  assert (Hlen : length (firstn (Z.to_nat l) row) = Z.to_nat l).
  { rewrite length_firstn. lia. }
  assert (Hnth : forall i, (i < Z.to_nat l)%nat ->
                   nth i (firstn (Z.to_nat l) row) 0 = nth i row 0).
  { intros i Hi. rewrite nth_firstn.
    apply Nat.ltb_lt in Hi. rewrite Hi. reflexivity. }
  repeat split; auto; try lia.
  unfold py_index. rewrite Hlen.
  replace ((0 <=? -1) && (-1 <? Z.of_nat (Z.to_nat l))) with false
    by reflexivity.
  replace ((- Z.of_nat (Z.to_nat l) <=? -1) && (-1 <? 0)) with true
    by (symmetry; apply andb_true_iff; split;
        [apply Z.leb_le; lia | reflexivity]).
  replace (Z.to_nat (Z.of_nat (Z.to_nat l) + -1)) with (Z.to_nat (l - 1))
    by lia.
  rewrite (nth_error_nth' _ 0) by lia.
  rewrite Hnth by lia. rewrite H0. reflexivity.
Qed.

(** ** The symbol codec of one row *)

Lemma total_mass_passes_guard (precision : Z) :
  precision = 16 \/ precision = 4 ->
  (2 ^ precision =? OVERFLOW_CODE) || (2 ^ precision =? Z.shiftl 1 OVERFLOW_WIDTH)
  = true.
Proof. intros [-> | ->]; reflexivity. Qed.

Lemma enc_statfun_scalar (row : list Z) (v : Z) :
  0 <= v -> v + 1 < Z.of_nat (length row) ->
  _indexed_cdf_to_enc_statfun row (scalar v)
  = Some (scalar (nth (Z.to_nat v) row 0),
          scalar (nth (Z.to_nat (v + 1)) row 0 - nth (Z.to_nat v) row 0)).
Proof.
  intros Hv Hv1. unfold _indexed_cdf_to_enc_statfun, scalar, item.
  cbn [data shape mapM map].
  rewrite (py_index_nth row v) by lia.
  rewrite (py_index_nth row (v + 1)) by lia.
  reflexivity.
Qed.

(** ** The symbol lookups *)

(** The search of both lookups: on a row that does not decrease over its
    first [l] entries, it finds the rightmost of those entries that is at
    most the key, whatever the row holds past them. *)
Lemma lookup_among_first (row : list Z) (l key : Z) :
  1 <= l <= Z.of_nat (length row) ->
  nondecreasingb (firstn (Z.to_nat l) row) = true ->
  nth 0 row 0 <= key ->
  rightmost_among_first l row key
    (searchsorted_right (py_slice_to row l) key - 1).
Proof.
  intros Hl Hs H0. rewrite py_slice_to_firstn by lia.
  set (cut := firstn (Z.to_nat l) row) in *.
  assert (Hlen : length cut = Z.to_nat l)
    by (unfold cut; rewrite length_firstn; lia).
  assert (Hnth : forall i, (i < Z.to_nat l)%nat -> nth i cut 0 = nth i row 0).
  { intros i Hi. unfold cut. rewrite nth_firstn.
    apply Nat.ltb_lt in Hi. rewrite Hi. reflexivity. }
  destruct (searchsorted_right_rightmost cut key Hs) as (Hi & Hle & Hgt).
  - intros Hnil. rewrite Hnil in Hlen. simpl in Hlen. lia.
  - rewrite (Hnth 0%nat) by lia. exact H0.
  - rewrite Hlen in Hi, Hgt. unfold rightmost_among_first.
    split; [lia|]. split.
    + rewrite <- Hnth by lia. exact Hle.
    + intros j Hj. rewrite <- Hnth by lia. apply Hgt. lia.
Qed.

(** The uniform row of three bins at precision 8 is a CDF row of the data
    model, and the scalar lookup cannot be constructed for it. *)
Lemma scalar_lookup_is_not_built_at_precision_8 :
  cdf_row_ok 8 [0; 85; 170; 256] 4 = true
  /\ _indexed_cdf_to_dec_statfun [0; 85; 170; 256] 4 = None.
Proof. split; vm_compute; reflexivity. Qed.

(** C5.  For a CDF row of total mass [2^16] or [2^4] (no other row gets a
    scalar lookup) and a cumulative frequency below that mass, the scalar
    lookup is constructed and returns the rightmost index, among the
    row's first [cdf_i_length] entries only, whose entry is at most the
    cumulative frequency; it is the only index [j] with
    [row[j] <= cum_freq < row[j+1]].  The vectorised lookup returns, cell
    by cell and for any row, the rightmost such index among the first
    entries of that cell's own row up to that cell's declared length. *)
Theorem symbol_lookup_rightmost :
  (forall (cdf_i : list Z) (cdf_i_length precision cum_freq : Z),
      2 <= cdf_i_length <= Z.of_nat (length cdf_i) ->
      nondecreasingb (firstn (Z.to_nat cdf_i_length) cdf_i) = true ->
      nth 0 cdf_i 0 = 0 ->
      nth (Z.to_nat (cdf_i_length - 1)) cdf_i 0 = 2 ^ precision ->
      precision = 16 \/ precision = 4 ->
      0 <= cum_freq < 2 ^ precision ->
      exists dec_statfun i,
        _indexed_cdf_to_dec_statfun cdf_i cdf_i_length = Some dec_statfun
        /\ dec_statfun (scalar cum_freq) = Some (scalar i)
        /\ rightmost_among_first cdf_i_length cdf_i cum_freq i
        /\ i < cdf_i_length - 1
        /\ cum_freq < nth (Z.to_nat (i + 1)) cdf_i 0
        /\ forall j, 0 <= j < cdf_i_length - 1 ->
             nth (Z.to_nat j) cdf_i 0 <= cum_freq
             < nth (Z.to_nat (j + 1)) cdf_i 0 ->
             j = i)
  /\ (forall (cdf_i : ndarray (list Z)) (cdf_i_length value : ndarray Z),
      shape value = shape cdf_i ->
      well_shaped cdf_i ->
      length (data value) = length (data cdf_i) ->
      length (data cdf_i_length) = length (data cdf_i) ->
      exists sym,
        _vec_indexed_cdf_to_dec_statfun cdf_i cdf_i_length value = Some sym
        /\ shape sym = shape cdf_i
        /\ forall k c l v,
             nth_error (data cdf_i) k = Some c ->
             nth_error (data cdf_i_length) k = Some l ->
             nth_error (data value) k = Some v ->
             1 <= l <= Z.of_nat (length c) ->
             nondecreasingb (firstn (Z.to_nat l) c) = true ->
             nth 0 c 0 <= v ->
             exists i,
               nth_error (data sym) k = Some i
               /\ rightmost_among_first l c v i).
Proof.
  split.
  - intros cdf_i l precision c Hl Hs H0 Hlast Hprec Hc.
    assert (Hok : cdf_row_ok precision cdf_i l = true).
    { unfold cdf_row_ok. rewrite py_slice_to_firstn by lia.
      rewrite Hs, H0, Hlast, !Z.eqb_refl.
      replace (2 <=? l) with true by (symmetry; apply Z.leb_le; lia).
      replace (l <=? Z.of_nat (length cdf_i)) with true
        by (symmetry; apply Z.leb_le; lia).
      reflexivity. }
    destruct (cdf_row_ok_facts precision cdf_i l Hok)
      as (_ & Hlen & Hsorted & Hcut & _ & _ & Hterm).
    pose proof (lookup_among_first cdf_i l c ltac:(lia) Hs ltac:(lia)) as Hr.
    unfold _indexed_cdf_to_dec_statfun.
    rewrite Hterm, (total_mass_passes_guard precision Hprec).
    set (cut := py_slice_to cdf_i l) in *.
    set (i := searchsorted_right cut c - 1) in *.
    eexists. exists i. split; [reflexivity|]. split; [reflexivity|].
    destruct Hr as (Hi & Hle & Hgt).
    assert (Hi1 : i < l - 1).
    { destruct (Z.eq_dec i (l - 1)) as [E | E]; [|lia].
      rewrite E, Hlast in Hle. lia. }
    split; [exact (conj Hi (conj Hle Hgt))|]. split; [exact Hi1|].
    split; [apply Hgt; lia|].
    intros j Hj [Hjle Hjgt].
    destruct (Z.lt_trichotomy j i) as [H | [H | H]]; [|exact H|].
    + pose proof (nondecreasingb_nth cut (Z.to_nat (j + 1)) (Z.to_nat i)
                    Hsorted ltac:(lia)) as Hmono.
      rewrite !Hcut in Hmono by lia. lia.
    + specialize (Hgt j ltac:(lia)). lia.
  - intros cdf_i cdf_i_length value Hshape Hwf Hlv Hll.
    unfold _vec_indexed_cdf_to_dec_statfun.
    rewrite (proj2 (shape_eqb_eq _ _) Hshape).
    rewrite !length_map, !length_combine, length_map, length_combine.
    replace (Nat.min (Nat.min (length (data cdf_i)) (length (data cdf_i_length)))
               (length (data value)) =? size (shape cdf_i))%nat with true
      by (symmetry; apply Nat.eqb_eq; unfold well_shaped in Hwf; lia).
    eexists. split; [reflexivity|]. split; [reflexivity|].
    intros k c l v Hc Hl Hv Hlc Hs H0. cbn [data].
    exists (searchsorted_right (py_slice_to c l) v - 1). split.
    + apply (nth_error_map_combine
               (fun cv => searchsorted_right (fst cv) (snd cv) - 1)); auto.
      apply (nth_error_map_combine (fun cl => py_slice_to (fst cl) (snd cl)));
        auto.
    + apply lookup_among_first; assumption.
Qed.

Lemma symbol_lookup_rightmost_witness :
  (exists dec_statfun i,
     _indexed_cdf_to_dec_statfun [0; 8; 16; 1; 1; 1; 1; 1] 3 = Some dec_statfun
     /\ dec_statfun (scalar 9) = Some (scalar i)
     /\ rightmost_among_first 3 [0; 8; 16; 1; 1; 1; 1; 1] 9 i)
  /\ (exists sym i,
        _vec_indexed_cdf_to_dec_statfun
          (mk_ndarray [2%nat] [[0; 64; 128; 256]; [0; 100; 256; 7]])
          (mk_ndarray [2%nat] [4; 3]) (mk_ndarray [2%nat] [70; 250])
        = Some sym
        /\ nth_error (data sym) 1 = Some i
        /\ rightmost_among_first 3 [0; 100; 256; 7] 250 i).
Proof.
  split.
  - destruct (proj1 symbol_lookup_rightmost [0; 8; 16; 1; 1; 1; 1; 1] 3 4 9)
      as (dec_statfun & i & Hdec & Hsym & Hright & _).
    + simpl. lia.
    + reflexivity.
    + reflexivity.
    + reflexivity.
    + right. reflexivity.
    + lia.
    + exists dec_statfun, i. split; [exact Hdec|]. split; assumption.
  - destruct (proj2 symbol_lookup_rightmost
                (mk_ndarray [2%nat] [[0; 64; 128; 256]; [0; 100; 256; 7]])
                (mk_ndarray [2%nat] [4; 3]) (mk_ndarray [2%nat] [70; 250]))
      as (sym & Hsym & _ & Hcells).
    + reflexivity.
    + reflexivity.
    + reflexivity.
    + reflexivity.
    + destruct (Hcells 1%nat [0; 100; 256; 7] 3 250) as (i & Hi & Hright).
      * reflexivity.
      * reflexivity.
      * reflexivity.
      * simpl. lia.
      * reflexivity.
      * simpl. lia.
      * exists sym, i. split; [exact Hsym|]. split; assumption.
Defined.

(** ** Push and pop on one row *)

(** Pushing a value of a well-formed row and popping it again returns the
    value and the message as it was. *)
Lemma symbol_codec_round_trip (precision : Z) (row : list Z) (l v h : Z)
    (words : list Z) :
  precision = 16 \/ precision = 4 ->
  cdf_row_ok precision row l = true ->
  0 <= v < l - 1 ->
  nth (Z.to_nat v) row 0 < nth (Z.to_nat (v + 1)) row 0 ->
  register_in_range h ->
  exists dec_statfun,
    _indexed_cdf_to_dec_statfun row l = Some dec_statfun
    /\ exists h' words',
         push (fst (base_codec (_indexed_cdf_to_enc_statfun row) dec_statfun
                      precision))
           (scalar_message h words) (scalar v)
         = Some (scalar_message h' words')
         /\ register_in_range h'
         /\ pop (fst (base_codec (_indexed_cdf_to_enc_statfun row) dec_statfun
                        precision))
              (scalar_message h' words')
            = Some (scalar_message h words, scalar v).
Proof.
  intros Hprec Hrow Hv Hfreq Hh.
  destruct (cdf_row_ok_facts precision row l Hrow)
    as (Hl & Hlen & Hsorted & Hcut & H0 & Hlast & Hterm).
  set (cut := py_slice_to row l) in *.
  set (s := nth (Z.to_nat v) row 0) in *.
  set (u := nth (Z.to_nat (v + 1)) row 0) in *.
  assert (Hs : 0 <= s).
  { pose proof (nondecreasingb_nth cut 0 (Z.to_nat v) Hsorted ltac:(lia)) as H.
    rewrite !Hcut in H by lia. unfold s. lia. }
  assert (Hu : u <= 2 ^ precision).
  { pose proof (nondecreasingb_nth cut (Z.to_nat (v + 1)) (Z.to_nat (l - 1))
                  Hsorted ltac:(lia)) as H.
    rewrite !Hcut in H by lia. unfold u. lia. }
  assert (Hp : 0 <= precision <= 31) by (destruct Hprec; lia).
  unfold _indexed_cdf_to_dec_statfun. fold cut. rewrite Hterm.
  rewrite (total_mass_passes_guard precision Hprec).
  eexists. split; [reflexivity|].
  destruct (scalar_push_pop precision h s (u - s) words [] [] Hp Hh Hs
              ltac:(lia) ltac:(lia))
    as (h' & words' & Hpush & Hh' & Hcf & Hpeek & Hpop).
  exists h', words'.
  assert (Henc : _indexed_cdf_to_enc_statfun row (scalar v)
                 = Some (scalar s, scalar (u - s))).
  { apply enc_statfun_scalar; lia. }
  split; [|split; [exact Hh'|]].
  - unfold base_codec. cbn [fst push]. rewrite Henc. exact Hpush.
  - unfold base_codec. cbn [fst pop].
    destruct (vrans.pop (scalar_message h' words') precision)
      as [cf pop_fun] eqn:Hpoped.
    cbn [fst snd] in Hcf, Hpop. subst cf.
    cbn [data shape map].
    set (c := vrans.peek precision h') in *.
    assert (Hsym : searchsorted_right cut c - 1 = v).
    { apply (rightmost_le_unique cut c).
      - apply searchsorted_right_rightmost; auto.
        + intros Hnil. rewrite Hnil in Hlen. simpl in Hlen. lia.
        + rewrite (Hcut 0%nat) by lia. lia.
      - unfold rightmost_le. split; [lia|]. split.
        + rewrite Hcut by lia. fold s. lia.
        + intros j Hj.
          pose proof (nondecreasingb_nth cut (Z.to_nat (v + 1)) (Z.to_nat j)
                        Hsorted ltac:(lia)) as H.
          rewrite (Hcut (Z.to_nat (v + 1))) in H by lia. fold u in H. lia. }
    rewrite Hsym. change (mk_ndarray [] [v]) with (scalar v).
    rewrite Henc.
    change (mk_ndarray [] [c]) with (scalar c).
    rewrite interval_holds_scalar.
    replace (s <=? c) with true by (symmetry; apply Z.leb_le; lia).
    replace (c <? s + (u - s)) with true by (symmetry; apply Z.ltb_lt; lia).
    cbn [andb]. unfold scalar. rewrite Hpop. reflexivity.
Qed.

(** ** One position of the scalar orchestrator *)

Lemma wrap_int32_id (z : Z) : int32_range z = true -> wrap_int32 z = z.
Proof.
  unfold int32_range, wrap_int32. intros H.
  apply andb_true_iff in H. destruct H as [H1 H2].
  apply Z.leb_le in H1. apply Z.ltb_lt in H2.
  rewrite Z.mod_small; lia.
Qed.

Lemma float64_of_int32 (z : Z) :
  int32_range z = true -> float64_of_int z = Float64 z.
Proof.
  unfold int32_range, float64_of_int. intros H.
  apply andb_true_iff in H. destruct H as [H1 H2].
  apply Z.leb_le in H1. apply Z.ltb_lt in H2.
  replace (Z.abs z <? 2 ^ 53) with true; [reflexivity|].
  symmetry. apply Z.ltb_lt.
  assert (2 ^ 31 < 2 ^ 53) by reflexivity. lia.
Qed.

(** What the data model gives at a codable position. *)
Lemma codable_facts cdf cdf_length cdf_offset precision (symbol index : Z) :
  table_ok cdf cdf_length cdf_offset precision = true ->
  codable cdf cdf_length cdf_offset (symbol, index) = true ->
  exists row l offset,
    int32_range symbol = true /\ int32_range index = true
    /\ 0 <= index < cdf_shape0 cdf
    /\ py_index (cdf_rows cdf) index = Some row
    /\ py_index cdf_length index = Some l
    /\ py_index cdf_offset index = Some offset
    /\ cdf_row_ok precision row l = true
    /\ l <= cdf_shape1 cdf
    /\ 0 <= symbol - offset < l - 2
    /\ nth (Z.to_nat (symbol - offset)) row 0
       < nth (Z.to_nat (symbol - offset + 1)) row 0.
Proof.
  unfold table_ok, codable. intros Ht Hc.
  apply andb_true_iff in Ht. destruct Ht as [_ Hrows].
  apply andb_true_iff in Hc. destruct Hc as [Hc Hm].
  apply andb_true_iff in Hc. destruct Hc as [Hc Hi2].
  apply andb_true_iff in Hc. destruct Hc as [Hc Hi1].
  apply andb_true_iff in Hc. destruct Hc as [Hs32 Hi32].
  destruct (py_index (cdf_rows cdf) index) as [row|] eqn:Hrow;
    [|discriminate].
  destruct (py_index cdf_length index) as [l|] eqn:Hl; [|discriminate].
  destruct (py_index cdf_offset index) as [offset|] eqn:Hoff; [|discriminate].
  apply andb_true_iff in Hm. destruct Hm as [Hm Hf].
  apply andb_true_iff in Hm. destruct Hm as [Hv1 Hv2].
  apply Z.leb_le in Hi1, Hv1. apply Z.ltb_lt in Hi2, Hv2, Hf.
  destruct (py_index_nonneg_inv _ _ _ Hi1 Hrow) as [Hrow' _].
  destruct (py_index_nonneg_inv _ _ _ Hi1 Hl) as [Hl' _].
  pose proof (nth_error_combine _ _ _ _ _ Hrow' Hl') as Hin.
  apply nth_error_In in Hin.
  rewrite forallb_forall in Hrows. specialize (Hrows _ Hin).
  cbn [fst snd] in Hrows.
  apply andb_true_iff in Hrows. destruct Hrows as [Hw Hok].
  apply Z.eqb_eq in Hw.
  destruct (cdf_row_ok_facts precision row l Hok) as (Hlr & _).
  exists row, l, offset. repeat split; auto; lia.
Qed.

Lemma list_set_Some {A} (xs : list A) (i : nat) (v : A) :
  (i < length xs)%nat -> exists ys, list_set xs i v = Some ys.
Proof.
  revert i. induction xs as [|x xs IH]; intros [|i] Hi; simpl in *; try lia.
  - eexists. reflexivity.
  - destruct (IH i ltac:(lia)) as [ys Hys]. rewrite Hys.
    eexists. reflexivity.
Qed.

Lemma list_set_nth_error {A} (xs ys : list A) (i : nat) (v : A) :
  list_set xs i v = Some ys ->
  nth_error ys i = Some v
  /\ forall j, j <> i -> nth_error ys j = nth_error xs j.
Proof.
  revert ys i. induction xs as [|x xs IH]; intros ys [|i] H; simpl in H;
    try discriminate.
  - injection H as <-. split; [reflexivity|].
    intros [|j] Hj; [congruence | reflexivity].
  - destruct (list_set xs i v) as [zs|] eqn:Hz; [|discriminate].
    injection H as <-. destruct (IH zs i Hz) as [H1 H2].
    split; [exact H1|].
    intros [|j] Hj; [reflexivity|]. simpl. apply H2. congruence.
Qed.

(** The encoder's step at a codable position pushes the shifted value,
    and the decoder's step on the resulting message pops it, restores the
    message and stores the symbol. *)
Lemma position_round_trip symbols indices cdf cdf_length cdf_offset precision
    (i : nat) (symbol index h : Z) (words : list Z) :
  precision = 16 \/ precision = 4 ->
  table_ok cdf cdf_length cdf_offset precision = true ->
  nth_error (data symbols) i = Some symbol ->
  nth_error (data indices) i = Some index ->
  codable cdf cdf_length cdf_offset (symbol, index) = true ->
  register_in_range h ->
  exists h' words',
    encode_step symbols indices cdf cdf_length cdf_offset precision
      (scalar_message h words) i = Some (scalar_message h' words')
    /\ register_in_range h'
    /\ forall decoded cells,
         list_set (data decoded) i (Float64 symbol) = Some cells ->
         decode_step indices cdf cdf_length cdf_offset precision
           (scalar_message h' words', decoded) i
         = Some (scalar_message h words, mk_ndarray (shape decoded) cells).
Proof.
  intros Hprec Htable Hsym Hidx Hcod Hh.
  destruct (codable_facts _ _ _ _ _ _ Htable Hcod)
    as (row & l & offset & Hs32 & Hi32 & Hindex & Hrow & Hl & Hoff & Hok & Hw
        & Hv & Hfreq).
  destruct (cdf_row_ok_facts precision row l Hok) as (Hlr & _).
  set (v := symbol - offset) in *.
  destruct (symbol_codec_round_trip precision row l v h words Hprec Hok
              ltac:(lia) Hfreq Hh)
    as (dec_statfun & Hdec & h' & words' & Hpush & Hh' & Hpop).
  assert (Hidxb : (0 <=? index) && (index <? cdf_shape0 cdf) = true).
  { apply andb_true_iff. split; [apply Z.leb_le | apply Z.ltb_lt]; lia. }
  assert (Hmaxb : (0 <=? l - 2) && (l - 2 <? cdf_shape1 cdf - 1) = true).
  { apply andb_true_iff. split; [apply Z.leb_le | apply Z.ltb_lt]; lia. }
  exists h', words'. split; [|split; [exact Hh'|]].
  - unfold encode_step.
    rewrite Hidx, Hrow, Hl, Hidxb, Hmaxb, Hsym, Hoff. fold v.
    rewrite (proj1 (clamp_spec v (l - 2))) by lia.
    replace ((0 <=? v) && (v <? l - 1)) with true
      by (symmetry; apply andb_true_iff; split;
          [apply Z.leb_le | apply Z.ltb_lt]; lia).
    rewrite Hdec, Hpush.
    destruct (v =? l - 2); reflexivity.
  - intros decoded cells Hset. unfold decode_step.
    rewrite Hidx, Hrow, Hl, Hidxb, Hmaxb, Hdec, Hpop.
    unfold item, scalar. cbn [data]. rewrite Hoff.
    replace (if v =? l - 2 then v else v) with v by (destruct (v =? l - 2); auto).
    replace (v + offset) with symbol by (unfold v; lia).
    unfold setitem. rewrite (float64_of_int32 symbol Hs32), Hset.
    reflexivity.
Qed.

(** ** The two loops *)

(** Positions pushed in reverse order are popped in forward order: the
    message returns to where it started and every visited cell of the
    output holds its symbol. *)
Lemma loop_round_trip symbols indices cdf cdf_length cdf_offset precision
    (ps : list nat) :
  precision = 16 \/ precision = 4 ->
  table_ok cdf cdf_length cdf_offset precision = true ->
  (forall p, In p ps ->
     exists symbol index,
       nth_error (data symbols) p = Some symbol
       /\ nth_error (data indices) p = Some index
       /\ codable cdf cdf_length cdf_offset (symbol, index) = true) ->
  forall h words, register_in_range h ->
  exists h' words',
    for_each (encode_step symbols indices cdf cdf_length cdf_offset precision)
      (rev ps) (scalar_message h words) = Some (scalar_message h' words')
    /\ register_in_range h'
    /\ forall decoded,
         (forall p, In p ps -> (p < length (data decoded))%nat) ->
         exists decoded',
           for_each (decode_step indices cdf cdf_length cdf_offset precision)
             ps (scalar_message h' words', decoded)
           = Some (scalar_message h words, decoded')
           /\ shape decoded' = shape decoded
           /\ length (data decoded') = length (data decoded)
           /\ (forall p, In p ps ->
                 nth_error (data decoded') p
                 = option_map Float64 (nth_error (data symbols) p))
           /\ (forall q, ~ In q ps ->
                 nth_error (data decoded') q = nth_error (data decoded) q).
Proof.
  intros Hprec Htable.
  induction ps as [|p ps IH]; intros Hps h words Hh.
  - exists h, words. split; [reflexivity|]. split; [exact Hh|].
    intros decoded _. exists decoded. simpl. repeat split; auto.
    intros p [].
  - destruct (IH (fun q Hq => Hps q (or_intror Hq)) h words Hh)
      as (h1 & words1 & Henc1 & Hh1 & Hdec1).
    destruct (Hps p (or_introl eq_refl)) as (symbol & index & Hsym & Hidx & Hcod).
    destruct (position_round_trip symbols indices cdf cdf_length cdf_offset
                precision p symbol index h1 words1 Hprec Htable Hsym Hidx Hcod
                Hh1)
      as (h2 & words2 & Henc2 & Hh2 & Hdec2).
    exists h2, words2. split; [|split; [exact Hh2|]].
    + cbn [rev]. rewrite for_each_app, Henc1. cbn [for_each]. rewrite Henc2.
      reflexivity.
    + intros decoded Hbound.
      destruct (list_set_Some (data decoded) p (Float64 symbol)
                  (Hbound p (or_introl eq_refl))) as [cells Hcells].
      pose proof (list_set_length _ _ _ _ Hcells) as Hlen.
      destruct (list_set_nth_error _ _ _ _ Hcells) as [Hat Hother].
      destruct (Hdec1 (mk_ndarray (shape decoded) cells))
        as (decoded' & Hrun & Hshape & Hlen' & Hin & Hout).
      { intros q Hq. cbn [data]. rewrite Hlen. apply Hbound. right. exact Hq. }
      exists decoded'. cbn [data shape] in *.
      split; [|split; [exact Hshape|split; [congruence|split]]].
      * cbn [for_each]. rewrite (Hdec2 decoded cells Hcells). exact Hrun.
      * intros q [<- | Hq].
        -- destruct (in_dec Nat.eq_dec p ps) as [Hp | Hp].
           ++ apply Hin. exact Hp.
           ++ rewrite (Hout p Hp), Hat, Hsym. reflexivity.
        -- apply Hin. exact Hq.
      * intros q Hq. rewrite (Hout q ltac:(intros H; apply Hq; right; exact H)).
        apply Hother. intros ->. apply Hq. left. reflexivity.
Qed.

(** ** Serialisation of a scalar message *)

Lemma unflatten_flatten_scalar (h : Z) (words : list Z) :
  register_in_range h ->
  vrans.unflatten_scalar (vrans.flatten (scalar_message h words))
  = Some (scalar_message h words).
Proof.
  intros [Hlo Hhi]. change vrans.rans_l with (2 ^ 31) in Hlo.
  unfold vrans.unflatten_scalar, vrans.unflatten, vrans.flatten, scalar_message.
  cbn [vrans.head vrans.tail data shape map app size fold_right Nat.mul
       length Nat.leb firstn skipn combine fst snd].
  unfold vrans.uint32. rewrite Z.shiftr_div_pow2 by lia.
  assert (Hq : 0 <= h / 2 ^ 32 < 2 ^ 32).
  { split; [apply Z.div_pos; lia|].
    apply Z.div_lt_upper_bound; [lia|].
    replace (2 ^ 32 * 2 ^ 32) with (2 ^ 64) by reflexivity.
    assert (2 ^ 63 < 2 ^ 64) by reflexivity. lia. }
  rewrite (Z.mod_small (h / 2 ^ 32)) by exact Hq.
  rewrite lor_shiftl_low by (try lia; apply Z.mod_pos_bound; lia).
  pose proof (Z.div_mod h (2 ^ 32) ltac:(lia)).
  replace (h / 2 ^ 32 * 2 ^ 32 + h mod 2 ^ 32) with h by lia.
  reflexivity.
Qed.

Lemma overflow_codec_default : overflow_codec OVERFLOW_WIDTH <> None.
Proof.
  unfold overflow_codec, _indexed_cdf_to_dec_statfun.
  set (cut := py_slice_to _ _).
  assert (Hterm : py_index cut (-1) = Some 16) by (vm_compute; reflexivity).
  rewrite Hterm.
  change ((16 =? OVERFLOW_CODE) || (16 =? Z.shiftl 1 OVERFLOW_WIDTH)) with true.
  discriminate.
Qed.

(** ** Round trip of the scalar orchestrator *)

Lemma codable_int32 cdf cdf_length cdf_offset (ss ks : list Z) :
  length ss = length ks ->
  forallb (codable cdf cdf_length cdf_offset) (combine ss ks) = true ->
  map wrap_int32 ss = ss /\ map wrap_int32 ks = ks.
Proof.
  revert ks. induction ss as [|s ss IH]; intros [|k ks] Hlen H;
    simpl in Hlen; try discriminate; auto.
  cbn [combine forallb] in H. apply andb_true_iff in H. destruct H as [Hc H].
  destruct (IH ks ltac:(lia) H) as [Hs Hk].
  unfold codable in Hc.
  apply andb_true_iff in Hc. destruct Hc as [Hc _].
  apply andb_true_iff in Hc. destruct Hc as [Hc _].
  apply andb_true_iff in Hc. destruct Hc as [Hc _].
  apply andb_true_iff in Hc. destruct Hc as [Hs32 Hi32].
  cbn [map]. rewrite Hs, Hk, (wrap_int32_id s Hs32), (wrap_int32_id k Hi32).
  split; reflexivity.
Qed.

(** The shared core of the round-trip statements. *)
Lemma encode_then_decode symbols indices cdf cdf_length cdf_offset precision :
  shape indices = shape symbols ->
  well_shaped symbols -> well_shaped indices ->
  precision = 16 \/ precision = 4 ->
  table_ok cdf cdf_length cdf_offset precision = true ->
  forallb (codable cdf cdf_length cdf_offset)
    (combine (data symbols) (data indices)) = true ->
  exists encoded,
    ans_index_encoder symbols indices cdf cdf_length cdf_offset precision
      OVERFLOW_WIDTH = Some (encoded, tl (shape symbols))
    /\ forall coding_shape,
         ans_index_decoder encoded indices cdf cdf_length cdf_offset precision
           coding_shape OVERFLOW_WIDTH
         = Some (mk_ndarray [size (shape symbols)] (floats (data symbols))).
Proof.
  intros Hshape Hws Hwi Hprec Htable Hcod.
  unfold well_shaped in Hws, Hwi.
  assert (Hlen : length (data symbols) = length (data indices))
    by (rewrite Hws, Hwi, Hshape; reflexivity).
  destruct (codable_int32 _ _ _ _ _ Hlen Hcod) as [Hsw Hkw].
  set (n := size (shape symbols)) in *.
  set (syms := mk_ndarray [n] (data symbols)).
  set (idxs := mk_ndarray [n] (data indices)).
  assert (Hpos : forall p, In p (range n) ->
            exists symbol index,
              nth_error (data syms) p = Some symbol
              /\ nth_error (data idxs) p = Some index
              /\ codable cdf cdf_length cdf_offset (symbol, index) = true).
  { intros p Hp. apply in_seq in Hp. cbn [data syms idxs].
    destruct (nth_error (data symbols) p) as [s|] eqn:Hs;
      [|apply nth_error_None in Hs; lia].
    destruct (nth_error (data indices) p) as [k|] eqn:Hk;
      [|apply nth_error_None in Hk; lia].
    exists s, k. repeat split.
    rewrite forallb_forall in Hcod. apply Hcod.
    apply (nth_error_In _ p). apply nth_error_combine; assumption. }
  assert (Hh0 : register_in_range vrans.rans_l).
  { unfold register_in_range. split; [lia | reflexivity]. }
  destruct (loop_round_trip syms idxs cdf cdf_length cdf_offset precision
              (range n) Hprec Htable Hpos vrans.rans_l [] Hh0)
    as (h' & words' & Henc & Hh' & Hdec).
  exists (vrans.flatten (scalar_message h' words')).
  pose proof overflow_codec_default as Hov.
  destruct (overflow_codec OVERFLOW_WIDTH) as [ov|] eqn:Hoveq; [|congruence].
  split.
  - unfold ans_index_encoder, flatten, astype_int32, len.
    cbn [shape data hd]. rewrite Hoveq, Hsw, Hkw, <- Hshape.
    rewrite Hshape. fold n. fold syms. fold idxs.
    change (vrans.empty_message []) with (scalar_message vrans.rans_l []).
    rewrite Henc. reflexivity.
  - intros coding_shape.
    unfold ans_index_decoder. rewrite (unflatten_flatten_scalar _ _ Hh').
    unfold flatten, astype_int32, len, np_empty.
    cbn [shape data hd]. rewrite Hoveq, Hkw, Hshape. fold n. fold idxs.
    destruct (Hdec (mk_ndarray [n] (repeat (Float64 0) n)))
      as (decoded' & Hrun & Hsh & Hln & Hin & _).
    { intros p Hp. apply in_seq in Hp. cbn [data]. rewrite repeat_length. lia. }
    rewrite Hrun. f_equal.
    destruct decoded' as [sh cells]. cbn [shape data] in *. subst sh.
    f_equal. apply nth_error_ext. intros p.
    rewrite repeat_length in Hln.
    destruct (Nat.lt_ge_cases p n) as [Hp | Hp].
    + rewrite Hin by (apply in_seq; lia).
      unfold floats. rewrite nth_error_map. reflexivity.
    + rewrite (proj2 (nth_error_None cells p)) by lia.
      symmetry. apply nth_error_None. unfold floats. rewrite length_map. lia.
Qed.

(** The range condition alone does not give the round trip.  At precision
    8 the scalar lookup is not constructed and the encoder aborts; a value
    on a bin of frequency zero cannot be pushed; and a symbol that does
    not fit 32 bits is cut to its low 32 bits before it is shifted, here
    into the escape bin. *)
Lemma range_condition_is_not_enough :
  (table_ok uniform3_table [4] [0] 8 = true
   /\ ans_index_encoder (mk_ndarray [3%nat] [0; 1; 0]) three_positions
        uniform3_table [4] [0] 8 OVERFLOW_WIDTH = None)
  /\ (table_ok (mk_cdf_table [[0; 0; 8; 16]] 4) [4] [0] 4 = true
      /\ ans_index_encoder one_position one_position
           (mk_cdf_table [[0; 0; 8; 16]] 4) [4] [0] 4 OVERFLOW_WIDTH = None)
  /\ (table_ok encode_table [4] [2 ^ 32] 4 = true
      /\ decode_encoded (mk_ndarray [1%nat] [2 ^ 32]) one_position
           encode_table encode_table [4] [2 ^ 32] 4
         = Some (mk_ndarray [1%nat] (floats [2 ^ 32 + 2]))).
Proof.
  repeat split; vm_compute; reflexivity.
Qed.

(** C1.  For tensors of 32-bit symbols and indices of the same shape over
    a table that satisfies the data model with total mass [2^16] or [2^4]
    (precision 16 or 4), with every shifted value inside its row's
    modelled range [0, cdf_length - 2) on a bin of positive frequency, the
    encoder produces a bitstream and the decoder, given that bitstream
    and the same arguments, returns the symbols exactly, position by
    position, as a flat array of floats. *)
Theorem scalar_round_trip :
  forall symbols indices cdf cdf_length cdf_offset precision,
    shape indices = shape symbols ->
    well_shaped symbols -> well_shaped indices ->
    precision = 16 \/ precision = 4 ->
    table_ok cdf cdf_length cdf_offset precision = true ->
    forallb (codable cdf cdf_length cdf_offset)
      (combine (data symbols) (data indices)) = true ->
    exists encoded coding_shape,
      ans_index_encoder symbols indices cdf cdf_length cdf_offset precision
        OVERFLOW_WIDTH = Some (encoded, coding_shape)
      /\ ans_index_decoder encoded indices cdf cdf_length cdf_offset precision
           coding_shape OVERFLOW_WIDTH
         = Some (mk_ndarray [size (shape symbols)] (floats (data symbols))).
Proof.
  intros symbols indices cdf cdf_length cdf_offset precision Hshape Hws Hwi
    Hprec Htable Hcod.
  destruct (encode_then_decode symbols indices cdf cdf_length cdf_offset
              precision Hshape Hws Hwi Hprec Htable Hcod)
    as (encoded & Henc & Hdec).
  exists encoded, (tl (shape symbols)). split; [exact Henc | apply Hdec].
Qed.

Lemma scalar_round_trip_witness :
  exists encoded coding_shape,
    ans_index_encoder grid_symbols grid_positions mass16_table [4] [0] 16
      OVERFLOW_WIDTH = Some (encoded, coding_shape)
    /\ ans_index_decoder encoded grid_positions mass16_table [4] [0] 16
         coding_shape OVERFLOW_WIDTH
       = Some (mk_ndarray [6%nat] (floats [0; 0; 0; 1; 0; 0])).
Proof.
  apply (scalar_round_trip grid_symbols grid_positions mass16_table [4] [0] 16).
  - reflexivity.
  - reflexivity.
  - reflexivity.
  - left. reflexivity.
  - vm_compute. reflexivity.
  - vm_compute. reflexivity.
Defined.

(** ** The inactive escape path *)

(** C2.  On one position of a row with [max_value = 1], the symbol 5 is
    clamped to the escape bin and nothing else is pushed: the bitstream
    is the one of the symbol 1, and so is every bitstream of a symbol
    outside the modelled range; decoding returns 1, not 5. *)
Theorem escape_payload_is_not_coded :
  ans_index_encoder (mk_ndarray [1%nat] [5]) one_position escape_table [3] [0]
    4 OVERFLOW_WIDTH = Some ([1; 8], [])
  /\ ans_index_encoder (mk_ndarray [1%nat] [1]) one_position escape_table [3]
       [0] 4 OVERFLOW_WIDTH = Some ([1; 8], [])
  /\ decode_encoded (mk_ndarray [1%nat] [5]) one_position escape_table
       escape_table [3] [0] 4 = Some (mk_ndarray [1%nat] (floats [1]))
  /\ forall symbol,
       int32_range symbol = true -> symbol < 0 \/ 1 <= symbol ->
       ans_index_encoder (mk_ndarray [1%nat] [symbol]) one_position
         escape_table [3] [0] 4 OVERFLOW_WIDTH = Some ([1; 8], []).
Proof.
  split; [vm_compute; reflexivity|].
  split; [vm_compute; reflexivity|].
  split; [vm_compute; reflexivity|].
  intros symbol H32 Hout.
  pose proof overflow_codec_default as Hov.
  unfold ans_index_encoder, flatten, astype_int32, len, one_position.
  cbn [shape data hd map size fold_right Nat.mul tl].
  rewrite (wrap_int32_id symbol H32).
  destruct (overflow_codec OVERFLOW_WIDTH) as [ov|]; [|congruence].
  change (rev (range (1 + 0))) with [0%nat]. cbn [for_each].
  unfold encode_step, escape_table.
  cbn [data nth_error cdf_rows].
  change (wrap_int32 0) with 0.
  change (py_index [[0; 8; 16]] 0) with (Some [0; 8; 16]).
  change (py_index [3] 0) with (Some 3).
  change (py_index [0] 0) with (Some 0).
  cbv beta iota.
  change ((0 <=? 0) && (0 <? cdf_shape0 (mk_cdf_table [[0; 8; 16]] 3)))
    with true.
  change ((0 <=? 3 - 2) && (3 - 2 <? cdf_shape1 (mk_cdf_table [[0; 8; 16]] 3) - 1))
    with true.
  cbv beta iota.
  assert (Hclamp : snd (clamp (symbol - 0) (3 - 2)) = 1).
  { unfold clamp. destruct (symbol - 0 <? 0) eqn:Hneg; [reflexivity|].
    destruct (symbol - 0 >=? 3 - 2) eqn:H; [reflexivity|]. lia. }
  destruct (clamp (symbol - 0) (3 - 2)) as [overflow value].
  cbn [snd] in Hclamp. subst value.
  vm_compute. reflexivity.
Qed.

Lemma escape_payload_is_not_coded_witness :
  ans_index_encoder (mk_ndarray [1%nat] [-7]) one_position escape_table [3]
    [0] 4 OVERFLOW_WIDTH = Some ([1; 8], []).
Proof.
  apply escape_payload_is_not_coded.
  - reflexivity.
  - left. lia.
Defined.

(** ** Order of the positions *)




(** ** The self-consistency check of [pop] *)




(** ** The total mass the lookups accept *)

Lemma for_each_steps {St A} (body : St -> A -> option St) (xs : list A)
    (st st' : St) :
  for_each body xs st = Some st' ->
  forall x, In x xs -> exists s s', body s x = Some s'.
Proof.
  revert st. induction xs as [|y xs IH]; intros st Hrun x Hx.
  - destruct Hx.
  - cbn [for_each] in Hrun.
    destruct (body st y) as [s1|] eqn:Hs1; [|discriminate].
    destruct Hx as [<- | Hx].
    + exists st, s1. exact Hs1.
    + apply (IH s1 Hrun x Hx).
Qed.

Lemma decode_step_guard indices cdf cdf_length cdf_offset precision
    (st st' : vrans.message * ndarray float64) (p : nat) :
  decode_step indices cdf cdf_length cdf_offset precision st p = Some st' ->
  exists index row l dec_statfun,
    nth_error (data indices) p = Some index
    /\ py_index (cdf_rows cdf) index = Some row
    /\ py_index cdf_length index = Some l
    /\ _indexed_cdf_to_dec_statfun row l = Some dec_statfun.
Proof.
  destruct st as [message decoded]. unfold decode_step.
  destruct (nth_error (data indices) p) as [index|] eqn:Hidx; [|discriminate].
  destruct (py_index (cdf_rows cdf) index) as [row|] eqn:Hrow; [|discriminate].
  destruct (py_index cdf_length index) as [l|] eqn:Hl; [|discriminate].
  destruct ((0 <=? index) && (index <? cdf_shape0 cdf)); [|discriminate].
  destruct ((0 <=? l - 2) && (l - 2 <? cdf_shape1 cdf - 1)); [|discriminate].
  destruct (_indexed_cdf_to_dec_statfun row l) as [dec_statfun|] eqn:Hdec;
    [|discriminate].
  intros _. exists index, row, l, dec_statfun. auto.
Qed.

(** The vectorised decoder completes on rows of total mass [2^8]. *)
Lemma vec_decode_accepts_mass_256 :
  vec_decode_encoded lane_symbols lane_positions mass8_table [4; 4] [0; 0] 8
    [2%nat] = Some lane_symbols
  /\ map (fun row => last_valid_entry row 4) (cdf_rows mass8_table)
     = [Some 256; Some 256].
Proof.
  split; vm_compute; reflexivity.
Qed.

(** C9.  The scalar symbol lookup is constructed only for a row whose
    last valid entry, at index [cdf_length - 1], is [2^16] or [2^4]; so
    every scalar decode that completes has used, at every position, a row
    of that total mass, and a row of total mass [2^8] is refused at
    precision 8. *)
Theorem scalar_lookup_requires_mass_16_or_4_bits :
  (forall row l dec_statfun,
     _indexed_cdf_to_dec_statfun row l = Some dec_statfun ->
     last_valid_entry row l = Some 65536 \/ last_valid_entry row l = Some 16)
  /\ (forall (row : list Z) l,
        1 <= l <= Z.of_nat (length row) ->
        last_valid_entry row l = Some (nth (Z.to_nat (l - 1)) row 0))
  /\ (forall encoded indices cdf cdf_length cdf_offset precision coding_shape
             overflow_width decoded,
        ans_index_decoder encoded indices cdf cdf_length cdf_offset precision
          coding_shape overflow_width = Some decoded ->
        forall p, (p < size (shape indices))%nat ->
        exists index row l,
          nth_error (data (astype_int32 indices)) p = Some index
          /\ py_index (cdf_rows cdf) index = Some row
          /\ py_index cdf_length index = Some l
          /\ (last_valid_entry row l = Some 65536
              \/ last_valid_entry row l = Some 16))
  /\ _indexed_cdf_to_dec_statfun [0; 85; 170; 256] 4 = None.
Proof.
  assert (Hguard : forall row l dec_statfun,
            _indexed_cdf_to_dec_statfun row l = Some dec_statfun ->
            last_valid_entry row l = Some 65536
            \/ last_valid_entry row l = Some 16).
  { intros row l dec_statfun. unfold _indexed_cdf_to_dec_statfun, last_valid_entry.
    destruct (py_index (py_slice_to row l) (-1)) as [term|]; [|discriminate].
    destruct (term =? OVERFLOW_CODE) eqn:H1.
    - apply Z.eqb_eq in H1. subst term. intros _. left. reflexivity.
    - destruct (term =? Z.shiftl 1 OVERFLOW_WIDTH) eqn:H2; [|discriminate].
      apply Z.eqb_eq in H2. subst term. intros _. right. reflexivity. }
  split; [exact Hguard|]. split; [|split; [|reflexivity]].
  - intros row l Hl. unfold last_valid_entry.
    rewrite py_slice_to_firstn by lia.
    unfold py_index. rewrite length_firstn.
    replace (Nat.min (Z.to_nat l) (length row)) with (Z.to_nat l) by lia.
    replace ((0 <=? -1) && (-1 <? Z.of_nat (Z.to_nat l))) with false
      by reflexivity.
    replace ((- Z.of_nat (Z.to_nat l) <=? -1) && (-1 <? 0)) with true
      by (symmetry; apply andb_true_iff; split;
          [apply Z.leb_le; lia | reflexivity]).
    replace (Z.to_nat (Z.of_nat (Z.to_nat l) + -1)) with (Z.to_nat (l - 1))
      by lia.
    rewrite (nth_error_nth' _ 0) by (rewrite length_firstn; lia).
    rewrite nth_firstn.
    replace (Z.to_nat (l - 1) <? Z.to_nat l)%nat with true
      by (symmetry; apply Nat.ltb_lt; lia).
    reflexivity.
  - intros encoded indices cdf cdf_length cdf_offset precision coding_shape
      overflow_width decoded Hdec p Hp.
    unfold ans_index_decoder in Hdec.
    destruct (vrans.unflatten_scalar encoded) as [message|]; [|discriminate].
    destruct (overflow_codec overflow_width); [|discriminate].
    destruct (for_each _ _ _) as [[m d]|] eqn:Hloop; [|discriminate].
    destruct (for_each_steps _ _ _ _ Hloop p) as (s & s' & Hstep).
    { apply in_seq. unfold flatten, astype_int32, len. cbn [shape hd]. lia. }
    destruct (decode_step_guard _ _ _ _ _ _ _ _ Hstep)
      as (index & row & l & dec_statfun & Hidx & Hrow & Hl & Hdecfun).
    exists index, row, l. repeat split; auto.
    apply (Hguard row l dec_statfun Hdecfun).
Qed.

Lemma scalar_lookup_requires_mass_16_or_4_bits_witness :
  last_valid_entry [0; 1; 65535; 65536] 4 = Some 65536
  \/ last_valid_entry [0; 1; 65535; 65536] 4 = Some 16.
Proof.
  apply (proj1 scalar_lookup_requires_mass_16_or_4_bits [0; 1; 65535; 65536] 4
           (fun cum_freq =>
              Some (mk_ndarray (shape cum_freq)
                      (map (fun c =>
                              searchsorted_right [0; 1; 65535; 65536] c - 1)
                         (data cum_freq))))).
  reflexivity.
Defined.

(** * Further properties of the orchestrators *)

(** ** Validation of the arguments *)

Lemma for_each_None {St A} (body : St -> A -> option St) (xs : list A)
    (st : St) (x : A) :
  In x xs -> (forall s, body s x = None) -> for_each body xs st = None.
Proof.
  revert st. induction xs as [|y xs IH]; intros st Hx Hfail.
  - destruct Hx.
  - cbn [for_each]. destruct (body st y) as [s1|] eqn:Hs1; [|reflexivity].
    destruct Hx as [-> | Hx].
    + rewrite Hfail in Hs1. discriminate.
    + apply IH; assumption.
Qed.

Lemma in_range_flat (indices : ndarray Z) (p : nat) :
  (p < size (shape indices))%nat ->
  In p (range (len (flatten (astype_int32 indices))))
  /\ In p (rev (range (len (flatten (astype_int32 indices))))).
Proof.
  intros Hp.
  assert (H : In p (range (len (flatten (astype_int32 indices))))).
  { apply in_seq. unfold flatten, astype_int32, len. cbn [shape hd]. lia. }
  split; [exact H | apply in_rev; rewrite rev_involutive; exact H].
Qed.

(** X1.  An index outside [0, number of rows) at any position aborts
    both scalar orchestrators, whatever the rest of the arguments; in
    particular a negative index never selects a row from the end of the
    table. *)
Theorem scalar_orchestrators_reject_index_out_of_range :
  forall symbols indices cdf cdf_length cdf_offset precision overflow_width
         p index,
    (p < size (shape indices))%nat ->
    nth_error (data (astype_int32 indices)) p = Some index ->
    index < 0 \/ cdf_shape0 cdf <= index ->
    ans_index_encoder symbols indices cdf cdf_length cdf_offset precision
      overflow_width = None
    /\ forall encoded coding_shape,
         ans_index_decoder encoded indices cdf cdf_length cdf_offset precision
           coding_shape overflow_width = None.
Proof.
  intros symbols indices cdf cdf_length cdf_offset precision overflow_width
    p index Hp Hidx Hout.
  destruct (in_range_flat indices p Hp) as [Hin Hinr].
  assert (Hb : (0 <=? index) && (index <? cdf_shape0 cdf) = false).
  { apply andb_false_iff. destruct Hout; [left; apply Z.leb_gt | right; apply Z.ltb_ge]; lia. }
  split.
  - unfold ans_index_encoder.
    destruct (overflow_codec overflow_width); [|reflexivity].
    rewrite (for_each_None _ _ _ p Hinr); [reflexivity|].
    intros message. unfold encode_step. cbn [flatten data]. rewrite Hidx.
    destruct (py_index (cdf_rows cdf) index); [|reflexivity].
    destruct (py_index cdf_length index); [|reflexivity].
    rewrite Hb. reflexivity.
  - intros encoded coding_shape. unfold ans_index_decoder.
    destruct (vrans.unflatten_scalar encoded); [|reflexivity].
    destruct (overflow_codec overflow_width); [|reflexivity].
    rewrite (for_each_None _ _ _ p Hin); [reflexivity|].
    intros [message decoded]. unfold decode_step. cbn [flatten data].
    rewrite Hidx.
    destruct (py_index (cdf_rows cdf) index); [|reflexivity].
    destruct (py_index cdf_length index); [|reflexivity].
    rewrite Hb. reflexivity.
Qed.

Lemma scalar_orchestrators_reject_index_out_of_range_witness :
  ans_index_encoder (mk_ndarray [1%nat] [0]) (mk_ndarray [1%nat] [-1])
    encode_table [4] [0] 4 OVERFLOW_WIDTH = None.
Proof.
  apply (scalar_orchestrators_reject_index_out_of_range
           (mk_ndarray [1%nat] [0]) (mk_ndarray [1%nat] [-1]) encode_table [4]
           [0] 4 OVERFLOW_WIDTH 0%nat (-1)).
  - simpl. lia.
  - reflexivity.
  - left. lia.
Defined.

(** X2.  A position whose row has a declared length below 2 or above the
    table width aborts both scalar orchestrators. *)
Theorem scalar_orchestrators_reject_bad_declared_length :
  forall symbols indices cdf cdf_length cdf_offset precision overflow_width
         p index l,
    (p < size (shape indices))%nat ->
    nth_error (data (astype_int32 indices)) p = Some index ->
    py_index cdf_length index = Some l ->
    l < 2 \/ cdf_shape1 cdf < l ->
    ans_index_encoder symbols indices cdf cdf_length cdf_offset precision
      overflow_width = None
    /\ forall encoded coding_shape,
         ans_index_decoder encoded indices cdf cdf_length cdf_offset precision
           coding_shape overflow_width = None.
Proof.
  intros symbols indices cdf cdf_length cdf_offset precision overflow_width
    p index l Hp Hidx Hl Hout.
  destruct (in_range_flat indices p Hp) as [Hin Hinr].
  assert (Hb : (0 <=? l - 2) && (l - 2 <? cdf_shape1 cdf - 1) = false).
  { apply andb_false_iff. destruct Hout; [left; apply Z.leb_gt | right; apply Z.ltb_ge]; lia. }
  split.
  - unfold ans_index_encoder.
    destruct (overflow_codec overflow_width); [|reflexivity].
    rewrite (for_each_None _ _ _ p Hinr); [reflexivity|].
    intros message. unfold encode_step. cbn [flatten data]. rewrite Hidx, Hl.
    destruct (py_index (cdf_rows cdf) index); [|reflexivity].
    destruct ((0 <=? index) && (index <? cdf_shape0 cdf)); [|reflexivity].
    rewrite Hb. reflexivity.
  - intros encoded coding_shape. unfold ans_index_decoder.
    destruct (vrans.unflatten_scalar encoded); [|reflexivity].
    destruct (overflow_codec overflow_width); [|reflexivity].
    rewrite (for_each_None _ _ _ p Hin); [reflexivity|].
    intros [message decoded]. unfold decode_step. cbn [flatten data].
    rewrite Hidx, Hl.
    destruct (py_index (cdf_rows cdf) index); [|reflexivity].
    destruct ((0 <=? index) && (index <? cdf_shape0 cdf)); [|reflexivity].
    rewrite Hb. reflexivity.
Qed.

Lemma scalar_orchestrators_reject_bad_declared_length_witness :
  ans_index_encoder (mk_ndarray [1%nat] [0]) (mk_ndarray [1%nat] [0])
    encode_table [5] [0] 4 OVERFLOW_WIDTH = None.
Proof.
  apply (scalar_orchestrators_reject_bad_declared_length
           (mk_ndarray [1%nat] [0]) (mk_ndarray [1%nat] [0]) encode_table [5]
           [0] 4 OVERFLOW_WIDTH 0%nat 0 5).
  - simpl. lia.
  - reflexivity.
  - reflexivity.
  - right. simpl. lia.
Defined.

(** ** What the encoder reads of the symbols *)

Lemma wrap_int32_period (z k : Z) : wrap_int32 (z + 2 ^ 32 * k) = wrap_int32 z.
Proof.
  unfold wrap_int32.
  replace (z + 2 ^ 32 * k + 2 ^ 31) with (z + 2 ^ 31 + k * 2 ^ 32) by lia.
  rewrite Z.mod_add by lia. reflexivity.
Qed.

Lemma for_each_ext_in {St A} (body body' : St -> A -> option St)
    (xs : list A) (st : St) :
  (forall s x, In x xs -> body s x = body' s x) ->
  for_each body xs st = for_each body' xs st.
Proof.
  revert st. induction xs as [|x xs IH]; intros st H; [reflexivity|].
  cbn [for_each]. rewrite (H st x (or_introl eq_refl)).
  destruct (body' st x) as [s1|]; [|reflexivity].
  apply IH. intros s y Hy. apply H. right. exact Hy.
Qed.

(** The encoder's step reads the symbol tensor at its own position only. *)
Lemma encode_step_reads_one_symbol symbols symbols' indices cdf cdf_length
    cdf_offset precision message (i : nat) :
  nth_error (data symbols) i = nth_error (data symbols') i ->
  encode_step symbols indices cdf cdf_length cdf_offset precision message i
  = encode_step symbols' indices cdf cdf_length cdf_offset precision message i.
Proof.
  intros H. unfold encode_step. rewrite H. reflexivity.
Qed.

(** X4.  The encoder codes the symbols modulo [2^32]
    ([astype(np.int32)]): adding a multiple of [2^32] to any symbol
    changes nothing in the result. *)
Theorem encoder_reads_symbols_modulo_two_to_32 :
  forall symbols (ks : list Z) indices cdf cdf_length cdf_offset precision
         overflow_width,
    length ks = length (data symbols) ->
    ans_index_encoder
      (mk_ndarray (shape symbols)
         (map (fun sk => fst sk + 2 ^ 32 * snd sk) (combine (data symbols) ks)))
      indices cdf cdf_length cdf_offset precision overflow_width
    = ans_index_encoder symbols indices cdf cdf_length cdf_offset precision
        overflow_width.
Proof.
  intros symbols ks indices cdf cdf_length cdf_offset precision overflow_width
    Hlen.
  unfold ans_index_encoder, flatten, astype_int32. cbn [shape data].
  replace (map wrap_int32
             (map (fun sk => fst sk + 2 ^ 32 * snd sk) (combine (data symbols) ks)))
    with (map wrap_int32 (data symbols)); [reflexivity|].
  rewrite map_map. revert ks Hlen.
  induction (data symbols) as [|d ds IH]; intros [|k ks] Hlen;
    simpl in Hlen; try discriminate; [reflexivity|].
  cbn [combine map fst snd]. rewrite wrap_int32_period. f_equal.
  apply IH. lia.
Qed.

Lemma encoder_reads_symbols_modulo_two_to_32_witness :
  ans_index_encoder (mk_ndarray [1%nat] [1 + 2 ^ 32 * 3]) one_position
    encode_table [4] [0] 4 OVERFLOW_WIDTH
  = ans_index_encoder (mk_ndarray [1%nat] [1]) one_position encode_table [4]
      [0] 4 OVERFLOW_WIDTH.
Proof.
  apply (encoder_reads_symbols_modulo_two_to_32 (mk_ndarray [1%nat] [1]) [3]).
  reflexivity.
Defined.

(** X5.  The encoder loops over the index positions: with fewer symbol
    cells than index positions it aborts, and symbol cells beyond the last
    index position have no influence on the bitstream. *)
Theorem encoder_loops_over_index_positions :
  (forall symbols indices cdf cdf_length cdf_offset precision overflow_width,
     (length (data symbols) < size (shape indices))%nat ->
     ans_index_encoder symbols indices cdf cdf_length cdf_offset precision
       overflow_width = None)
  /\ (forall symbols symbols' indices cdf cdf_length cdf_offset precision
             overflow_width,
        firstn (size (shape indices)) (data symbols)
        = firstn (size (shape indices)) (data symbols') ->
        option_map fst
          (ans_index_encoder symbols indices cdf cdf_length cdf_offset
             precision overflow_width)
        = option_map fst
            (ans_index_encoder symbols' indices cdf cdf_length cdf_offset
               precision overflow_width)).
Proof.
  split.
  - intros symbols indices cdf cdf_length cdf_offset precision overflow_width
      Hshort.
    set (n := size (shape indices)) in *.
    destruct (in_range_flat indices (n - 1)) as [_ Hinr]; [fold n; lia|].
    unfold ans_index_encoder.
    destruct (overflow_codec overflow_width); [|reflexivity].
    rewrite (for_each_None _ _ _ (n - 1)%nat Hinr); [reflexivity|].
    intros message. unfold encode_step. cbn [flatten astype_int32 data].
    replace (nth_error (map wrap_int32 (data symbols)) (n - 1)) with (@None Z)
      by (symmetry; apply nth_error_None; rewrite length_map; lia).
    destruct (nth_error (map wrap_int32 (data indices)) (n - 1))
      as [index|]; [|reflexivity].
    destruct (py_index (cdf_rows cdf) index) as [row|]; [|reflexivity].
    destruct (py_index cdf_length index) as [l|]; [|reflexivity].
    destruct ((0 <=? index) && (index <? cdf_shape0 cdf)); [|reflexivity].
    destruct ((0 <=? l - 2) && (l - 2 <? cdf_shape1 cdf - 1)); reflexivity.
  - intros symbols symbols' indices cdf cdf_length cdf_offset precision
      overflow_width Hsame.
    unfold ans_index_encoder.
    destruct (overflow_codec overflow_width); [|reflexivity].
    rewrite (for_each_ext_in
               (encode_step (flatten (astype_int32 symbols))
                  (flatten (astype_int32 indices)) cdf cdf_length cdf_offset
                  precision)
               (encode_step (flatten (astype_int32 symbols'))
                  (flatten (astype_int32 indices)) cdf cdf_length cdf_offset
                  precision)).
    + destruct (for_each _ _ _); reflexivity.
    + intros s p Hp. apply encode_step_reads_one_symbol.
      apply in_rev in Hp. apply in_seq in Hp.
      unfold flatten, astype_int32, len in *. cbn [shape hd data] in *.
      rewrite !nth_error_map.
      assert (H : forall l : list Z,
                nth_error l p
                = nth_error (firstn (size (shape indices)) l) p).
      { intros l. rewrite nth_error_firstn.
        replace (p <? size (shape indices))%nat with true
          by (symmetry; apply Nat.ltb_lt; lia).
        reflexivity. }
      rewrite (H (data symbols)), (H (data symbols')), Hsame. reflexivity.
Qed.

Lemma encoder_loops_over_index_positions_witness :
  ans_index_encoder (mk_ndarray [0%nat] []) one_position encode_table [4] [0]
    4 OVERFLOW_WIDTH = None
  /\ option_map fst
       (ans_index_encoder (mk_ndarray [2%nat] [1; 77]) one_position
          encode_table [4] [0] 4 OVERFLOW_WIDTH)
     = option_map fst
         (ans_index_encoder (mk_ndarray [1%nat] [1]) one_position encode_table
            [4] [0] 4 OVERFLOW_WIDTH).
Proof.
  split.
  - apply (proj1 encoder_loops_over_index_positions). simpl. lia.
  - apply (proj2 encoder_loops_over_index_positions). reflexivity.
Defined.

(** ** The clamped value *)



(** ** The coding shape of the vectorised decoder *)

Lemma shape_eqb_neq (s1 s2 : list nat) : s1 <> s2 -> shape_eqb s1 s2 = false.
Proof.
  intros H. destruct (shape_eqb s1 s2) eqn:E; [|reflexivity].
  apply shape_eqb_eq in E. contradiction.
Qed.

Lemma unflatten_shape (arr : list Z) (sh : list nat) (x : vrans.message) :
  vrans.unflatten arr sh = Some x -> shape (vrans.head x) = sh.
Proof.
  unfold vrans.unflatten.
  destruct (2 * size sh <=? length arr)%nat; [|discriminate].
  intros H. injection H as <-. reflexivity.
Qed.

(** A vectorised pop aborts on a message whose lanes are not shaped like
    the index lane. *)
Lemma vec_decode_step_shape_mismatch cdf_index cdf cdf_length cdf_offset
    precision (message : vrans.message) (symbols : list (ndarray Z)) (i : nat) :
  shape (vrans.head message) <> tl (shape cdf_index) ->
  vec_decode_step cdf_index cdf cdf_length cdf_offset precision
    (message, symbols) i = None.
Proof.
  intros Hne. unfold vec_decode_step.
  destruct (nd_get cdf_index i) as [cdf_index_i|] eqn:Hget; [|reflexivity].
  assert (Hsh : shape cdf_index_i = tl (shape cdf_index)).
  { unfold nd_get in Hget. destruct (shape cdf_index) as [|n sh]; [discriminate|].
    destruct (i <? n)%nat; [|discriminate].
    injection Hget as <-. reflexivity. }
  unfold take.
  destruct (mapM (py_index (cdf_rows cdf)) (data cdf_index_i)) as [rows|];
    [|reflexivity].
  destruct (mapM (py_index cdf_length) (data cdf_index_i)) as [lengths|];
    [|reflexivity].
  unfold base_codec. cbn [fst pop vrans.pop].
  unfold _vec_indexed_cdf_to_dec_statfun. cbn [shape].
  rewrite Hsh, (shape_eqb_neq _ _ Hne). reflexivity.
Qed.

(** X8.  With two or more lanes the vectorised decoder aborts unless the
    caller's [coding_shape] is the shape of one index lane,
    [indices.shape[1:]]; with a single lane it aborts unless
    [coding_shape] is the lane shape of the decomposed indices. *)
Theorem vec_decoder_requires_lane_shape :
  forall (unfolded : Type) decompose reconstitute encoded indices cdf
         cdf_length cdf_offset precision coding_shape overflow_width
         B n_channels rest,
    shape indices = B :: n_channels :: rest ->
    (B <> 1%nat ->
     (0 < B)%nat -> coding_shape <> n_channels :: rest ->
     vec_ans_index_decoder unfolded decompose reconstitute encoded indices cdf
       cdf_length cdf_offset precision coding_shape overflow_width = None)
    /\ (B = 1%nat ->
        forall indices' unfolded_shape,
          decompose (astype_int32 indices) n_channels
          = Some (indices', unfolded_shape) ->
          tl (shape indices') <> coding_shape ->
          vec_ans_index_decoder unfolded decompose reconstitute encoded indices
            cdf cdf_length cdf_offset precision coding_shape overflow_width
          = None).
Proof.
  intros unfolded decompose reconstitute encoded indices cdf cdf_length
    cdf_offset precision coding_shape overflow_width B n_channels rest Hshape.
  split.
  - intros HB Hpos Hne. unfold vec_ans_index_decoder. rewrite Hshape.
    destruct (vrans.unflatten encoded coding_shape) as [message|] eqn:Hun;
      [|reflexivity].
    apply unflatten_shape in Hun.
    destruct (forallb _ (data (astype_int32 indices))); [|reflexivity].
    destruct (take cdf_length (astype_int32 indices)); [|reflexivity].
    destruct (forallb _ _); [|reflexivity].
    replace (B =? 1)%nat with false by (symmetry; apply Nat.eqb_neq; exact HB).
    unfold len, astype_int32. cbn [shape hd]. rewrite Hshape. cbn [hd].
    destruct B as [|B']; [lia|].
    unfold range. cbn [seq for_each].
    rewrite vec_decode_step_shape_mismatch; [reflexivity|].
    cbn [shape tl]. rewrite Hun. exact Hne.
  - intros HB indices' unfolded_shape Hdec Hne. subst B.
    unfold vec_ans_index_decoder. rewrite Hshape.
    destruct (vrans.unflatten encoded coding_shape); [|reflexivity].
    destruct (forallb _ (data (astype_int32 indices))); [|reflexivity].
    destruct (take cdf_length (astype_int32 indices)); [|reflexivity].
    destruct (forallb _ _); [|reflexivity].
    cbn [Nat.eqb]. rewrite Hdec, (shape_eqb_neq _ _ Hne). reflexivity.
Qed.

Lemma vec_decoder_requires_lane_shape_witness :
  vec_ans_index_decoder unit no_decompose no_reconstitute
    [5; 5; 515395696; 515396152] lane_positions mass8_table [4; 4] [0; 0] 8
    [1%nat; 2%nat] OVERFLOW_WIDTH = None.
Proof.
  apply (proj1 (vec_decoder_requires_lane_shape unit no_decompose
                  no_reconstitute [5; 5; 515395696; 515396152] lane_positions
                  mass8_table [4; 4] [0; 0] 8 [1%nat; 2%nat] OVERFLOW_WIDTH
                  2%nat 2%nat [] eq_refl)).
  - discriminate.
  - lia.
  - discriminate.
Defined.

(** ** The stack coder: all lanes *)

Lemma refill_cons (x h : Z) (xs words words' : list Z) :
  vrans.refill [x] words = Some ([h], words') ->
  vrans.refill (x :: xs) words
  = match vrans.refill xs words' with
    | Some (hs, rest) => Some (h :: hs, rest)
    | None => None
    end.
Proof.
  cbn [vrans.refill]. destruct (x <? vrans.rans_l).
  - destruct words as [|w ws]; [discriminate|].
    intros H. injection H as <- <-. reflexivity.
  - intros H. injection H as <- <-. reflexivity.
Qed.

Lemma lanes_push_pop (p : Z) (ls : list (Z * (Z * Z))) :
  0 <= p <= 31 -> Forall (lane_ok p) ls ->
  Forall register_in_range (map fst (map (vrans.push_lane p) ls))
  /\ Forall (peek_in_interval p)
       (combine (map fst (map (vrans.push_lane p) ls)) (map snd ls))
  /\ forall words,
       vrans.refill
         (map (vrans.pop_lane p)
            (combine (map fst (map (vrans.push_lane p) ls)) (map snd ls)))
         (flat_map snd (map (vrans.push_lane p) ls) ++ words)
       = Some (map fst ls, words).
Proof.
  intros Hp Hls. induction Hls as [|[h [s f]] ls Hl Hls IH].
  - repeat split; constructor.
  - destruct IH as (IH1 & IH2 & IH3).
    destruct Hl as (Hh & Hs & Hf & Hsf). cbn [fst snd] in Hh, Hs, Hf, Hsf.
    destruct (push_lane_spec p h s f Hp Hh Hs Hf Hsf)
      as (h' & spilled & Hpush & Hh' & Hpeek & Hpop).
    cbn [map combine flat_map fst snd]. rewrite Hpush. cbn [fst snd].
    split; [constructor; assumption|].
    split; [constructor; [exact Hpeek | assumption]|].
    intros words. rewrite <- app_assoc.
    rewrite (refill_cons _ h _ _ _ (Hpop _)), IH3. reflexivity.
Qed.

Lemma lanes_fst (hs ss fs : list Z) :
  length ss = length hs -> length fs = length hs ->
  map fst (vrans.lanes hs ss fs) = hs
  /\ map snd (vrans.lanes hs ss fs) = combine ss fs.
Proof.
  unfold vrans.lanes. revert ss fs.
  induction hs as [|h hs IH]; intros [|s ss] [|f fs] H1 H2; simpl in *;
    try discriminate; auto.
  destruct (IH ss fs ltac:(lia) ltac:(lia)) as [-> ->]. auto.
Qed.

(** Pushing one interval per lane and popping them again restores the
    message; in between, every lane peeks a cumulative frequency of its
    interval. *)
Lemma vrans_push_pop (x : vrans.message) (starts freqs : ndarray Z) (p : Z) :
  0 <= p <= 31 ->
  length (data starts) = length (data (vrans.head x)) ->
  length (data freqs) = length (data (vrans.head x)) ->
  Forall (lane_ok p)
    (vrans.lanes (data (vrans.head x)) (data starts) (data freqs)) ->
  exists x',
    vrans.push x starts freqs p = Some x'
    /\ shape (vrans.head x') = shape (vrans.head x)
    /\ length (data (vrans.head x')) = length (data (vrans.head x))
    /\ Forall register_in_range (data (vrans.head x'))
    /\ fst (vrans.pop x' p)
       = mk_ndarray (shape (vrans.head x))
           (map (vrans.peek p) (data (vrans.head x')))
    /\ Forall (peek_in_interval p)
         (combine (data (vrans.head x')) (combine (data starts) (data freqs)))
    /\ forall starts' freqs',
         data starts' = data starts -> data freqs' = data freqs ->
         snd (vrans.pop x' p) starts' freqs' = Some x.
Proof.
  intros Hp Hs Hf Hls.
  destruct x as [[sh hs] words]. cbn [vrans.head vrans.tail data shape] in *.
  destruct (lanes_fst hs (data starts) (data freqs) Hs Hf) as [Hfst Hsnd].
  destruct (lanes_push_pop p _ Hp Hls) as (H1 & H2 & H3).
  rewrite Hsnd in H2, H3. rewrite Hfst in H3.
  set (r := map (vrans.push_lane p)
              (vrans.lanes hs (data starts) (data freqs))) in *.
  assert (Hlen : length (map fst r) = length hs).
  { unfold r. rewrite !length_map. unfold vrans.lanes.
    rewrite !length_combine. lia. }
  exists (vrans.mk_message (mk_ndarray sh (map fst r)) (flat_map snd r ++ words)).
  cbn [vrans.head vrans.tail data shape].
  split; [|repeat split; auto].
  - unfold vrans.push. cbn [vrans.head vrans.tail data shape].
    unfold vrans.same_lanes. rewrite Hs, Hf, Nat.eqb_refl. cbn [andb].
    replace (forallb _ (combine (data starts) (data freqs))) with true;
      [reflexivity|].
    symmetry. apply forallb_forall. intros [s f] Hin.
    rewrite <- Hsnd in Hin. apply in_map_iff in Hin.
    destruct Hin as ([h [s' f']] & Heq & Hin). cbn [snd] in Heq.
    injection Heq as -> ->.
    rewrite Forall_forall in Hls. destruct (Hls _ Hin) as (_ & H0 & H0' & H0'').
    cbn [fst snd] in *. unfold vrans.valid_interval. rewrite Z.shiftl_1_l.
    apply andb_true_iff. split; [apply andb_true_iff; split|];
      [apply Z.leb_le | apply Z.ltb_lt | apply Z.leb_le]; lia.
  - intros starts' freqs' Es Ef. unfold vrans.pop.
    cbn [vrans.head vrans.tail data shape snd].
    unfold vrans.same_lanes. rewrite Es, Ef, Hlen, Hs, Hf, Nat.eqb_refl.
    cbn [andb]. unfold vrans.lanes at 1. rewrite H3. reflexivity.
Qed.

(** ** Lists of lanes *)





(** Two families of facts about as many lanes, read lane by lane. *)
Lemma Forall_lanes {A B C} (P : B -> Prop) (Q : A * C -> Prop) (g : B -> C)
    (hs : list A) (cells : list B) :
  length hs = length cells ->
  Forall P cells -> Forall Q (combine hs (map g cells)) ->
  Forall (fun hc => P (snd hc) /\ Q (fst hc, g (snd hc))) (combine hs cells).
Proof.
  revert hs. induction cells as [|c cells IH]; intros [|h hs] Hlen HP HQ;
    simpl in Hlen; try discriminate; [constructor|].
  cbn [map combine] in *. inversion HP; subst. inversion HQ; subst.
  constructor; [split; assumption|]. apply IH; auto.
Qed.

Lemma map_combine_snd {A B C} (f : A * B -> C) (g : B -> C) (hs : list A)
    (cells : list B) :
  length hs = length cells ->
  Forall (fun hc => f hc = g (snd hc)) (combine hs cells) ->
  map f (combine hs cells) = map g cells.
Proof.
  revert hs. induction cells as [|c cells IH]; intros [|h hs] Hlen H;
    simpl in Hlen; try discriminate; [reflexivity|].
  cbn [combine map] in *. inversion H; subst. cbn [snd] in *.
  f_equal; [assumption|]. apply IH; auto.
Qed.


(** ** The symbol codec of one lane vector *)






Lemma lane_intervals_hold precision (hs ss fs : list Z) (sh : list nat) :
  Forall (peek_in_interval precision) (combine hs (combine ss fs)) ->
  length hs = size sh -> length ss = length hs -> length fs = length hs ->
  interval_holds (mk_ndarray sh ss) (mk_ndarray sh fs)
    (mk_ndarray sh (map (vrans.peek precision) hs)) = Some true.
Proof.
  intros H H0 H1 H2.
  rewrite interval_holds_cells by (rewrite ?length_map; lia).
  f_equal. clear H0.
  revert ss fs H H1 H2. induction hs as [|h hs IH]; intros [|s ss] [|f fs] H H1 H2;
    simpl in H1, H2; try discriminate; [reflexivity|].
  cbn [map combine forallb fst snd] in *.
  pose proof (Forall_inv H) as H4. pose proof (Forall_inv_tail H) as H5.
  unfold peek_in_interval in H4. cbn [fst snd] in H4.
  specialize (IH ss fs H5 ltac:(lia) ltac:(lia)).
  apply andb_true_iff in IH. destruct IH as [IH1 IH2].
  rewrite IH1, IH2.
  replace (s <=? vrans.peek precision h) with true
    by (symmetry; apply Z.leb_le; lia).
  replace (vrans.peek precision h <? s + f) with true
    by (symmetry; apply Z.ltb_lt; lia).
  reflexivity.
Qed.


(** ** Lanes of a tensor *)







(** ** One lane vector of the vectorised orchestrator *)



(** ** Serialisation of a message of lanes *)







(** ** Round trip of the vectorised orchestrator *)






(** On a lane shape with an inner axis of length one the squeezed
    intervals no longer have the shape of the message: the check of [pop]
    then compares every interval with every cumulative frequency, and
    encoding followed by decoding aborts. *)
Lemma unit_axis_lanes_abort :
  vec_decode_encoded (mk_ndarray [2%nat; 2%nat; 1%nat] [1; 0; 0; 1])
    (mk_ndarray [2%nat; 2%nat; 1%nat] [0; 0; 0; 0]) mass8_table [4; 4] [0; 0]
    8 [2%nat; 1%nat]
  = None.
Proof. vm_compute. reflexivity. Qed.

(** ** Push and pop of the generic codec *)

Lemma Forall_combine_map_l {A B C} (P : C * B -> Prop) (f : A -> C)
    (xs : list A) (ys : list B) :
  Forall (fun xy => P (f (fst xy), snd xy)) (combine xs ys) ->
  Forall P (combine (map f xs) ys).
Proof.
  revert ys. induction xs as [|x xs IH]; intros [|y ys] H;
    cbn [map combine] in *; try constructor.
  - exact (Forall_inv H).
  - apply IH. exact (Forall_inv_tail H).
Qed.

(** X10.  For any pair of lookups: when the message holds one register
    per cell of its shape, all in range, the intervals the encode-side
    lookup gives for the symbol have the shape of the message and are
    well formed for the precision, and the decode-side lookup maps every
    array of cumulative frequencies that lie inside those intervals back
    to the symbol, then [pop] after [push] returns the symbol together
    with the message as it was before the push. *)
Theorem base_codec_pop_undoes_push :
  forall enc_statfun dec_statfun precision x symbol starts freqs,
    0 <= precision <= 31 ->
    enc_statfun symbol = Some (starts, freqs) ->
    well_shaped (vrans.head x) ->
    shape starts = shape (vrans.head x) ->
    shape freqs = shape (vrans.head x) ->
    length (data starts) = length (data (vrans.head x)) ->
    length (data freqs) = length (data (vrans.head x)) ->
    Forall (lane_ok precision)
      (vrans.lanes (data (vrans.head x)) (data starts) (data freqs)) ->
    (forall cf,
       shape cf = shape (vrans.head x) ->
       length (data cf) = length (data (vrans.head x)) ->
       Forall (fun cl => fst (snd cl) <= fst cl < fst (snd cl) + snd (snd cl))
         (combine (data cf) (combine (data starts) (data freqs))) ->
       dec_statfun cf = Some symbol) ->
    exists x',
      push (fst (base_codec enc_statfun dec_statfun precision)) x symbol
      = Some x'
      /\ Forall register_in_range (data (vrans.head x'))
      /\ pop (fst (base_codec enc_statfun dec_statfun precision)) x'
         = Some (x, symbol).
Proof.
  intros enc dec precision x symbol starts freqs Hp Henc Hwx Hss Hsf Hs Hf Hls
    Hdec.
  destruct (vrans_push_pop x starts freqs precision Hp Hs Hf Hls)
    as (x' & Hpush & Hsh' & Hlen' & Hhs' & Hcf & Hpeek & Hpop).
  exists x'. split; [|split; [exact Hhs'|]].
  - unfold base_codec. cbn [fst push]. rewrite Henc. exact Hpush.
  - unfold base_codec. cbn [fst pop].
    destruct (vrans.pop x' precision) as [cf pop_fun] eqn:Hpoped.
    cbn [fst snd] in Hcf, Hpop. subst cf.
    rewrite Hdec, Henc.
    + destruct starts as [sh1 ss], freqs as [sh2 fs].
      cbn [data shape] in *. subst sh1 sh2.
      unfold well_shaped in Hwx.
      rewrite (lane_intervals_hold precision (data (vrans.head x')) ss fs
                 (shape (vrans.head x)) Hpeek) by lia.
      rewrite (Hpop (mk_ndarray (shape (vrans.head x)) ss)
                 (mk_ndarray (shape (vrans.head x)) fs) eq_refl eq_refl).
      reflexivity.
    + reflexivity.
    + cbn [data]. rewrite length_map. exact Hlen'.
    + cbn [data]. apply Forall_combine_map_l.
      eapply Forall_impl; [|exact Hpeek].
      intros [h [s f]] H. exact H.
Qed.

Lemma base_codec_pop_undoes_push_witness :
  exists x',
    push (fst (base_codec (fun _ => Some (scalar 4, scalar 4))
                 (fun _ => Some (scalar 1)) 4))
      (vrans.empty_message []) (scalar 1) = Some x'
    /\ Forall register_in_range (data (vrans.head x'))
    /\ pop (fst (base_codec (fun _ => Some (scalar 4, scalar 4))
                   (fun _ => Some (scalar 1)) 4)) x'
       = Some (vrans.empty_message [], scalar 1).
Proof.
  apply (base_codec_pop_undoes_push (fun _ => Some (scalar 4, scalar 4))
           (fun _ => Some (scalar 1)) 4 (vrans.empty_message []) (scalar 1)
           (scalar 4) (scalar 4)).
  - lia.
  - reflexivity.
  - reflexivity.
  - reflexivity.
  - reflexivity.
  - reflexivity.
  - reflexivity.
  - repeat constructor; cbn; lia.
  - intros cf _ _ _. reflexivity.
Defined.

(** ** What the scalar decoder can return *)




(** ** Validation in the vectorised orchestrators *)






(** ** A batch of one *)



(** * The compression service *)

(** ** Splitting and joining strings *)

Lemma append_assoc (a b c : string) :
  ((a ++ b) ++ c)%string = (a ++ (b ++ c))%string.
Proof.
  induction a as [|x a IH]; cbn [String.append]; [reflexivity|].
  rewrite IH. reflexivity.
Qed.



Lemma split_nonempty (sep : ascii) (s : string) : split sep s <> [].
Proof.
  destruct s as [|c s]; cbn [split]; [discriminate|].
  destruct (Ascii.eqb c sep); [discriminate|].
  destruct (split sep s); discriminate.
Qed.

(** Splitting commutes with joining two strings by the separator. *)
Lemma split_app (sep : ascii) (a b : string) :
  split sep (a ++ String sep b) = split sep a ++ split sep b.
Proof.
  induction a as [|c a IH]; cbn [String.append split].
  - rewrite Ascii.eqb_refl. reflexivity.
  - rewrite IH. destruct (Ascii.eqb c sep); [reflexivity|].
    destruct (split sep a) as [|part parts] eqn:E; [|reflexivity].
    exfalso. exact (split_nonempty sep a E).
Qed.


Lemma last_app_nonempty {A} (l l' : list A) (d : A) :
  l' <> [] -> last (l ++ l') d = last l' d.
Proof.
  intros H. induction l as [|x l IH]; [reflexivity|].
  cbn [app last]. destruct (l ++ l') eqn:E; [|exact IH].
  apply app_eq_nil in E. destruct E as [_ E]. contradiction.
Qed.

Lemma last_split_app (sep : ascii) (a b : string) :
  last (split sep (a ++ String sep b)) EmptyString
  = last (split sep b) EmptyString.
Proof.
  rewrite split_app. apply last_app_nonempty, split_nonempty.
Qed.

(** Joining the parts by the separator gives the string back. *)
Lemma concat_split (sep : ascii) (s : string) :
  String.concat (String sep EmptyString) (split sep s) = s.
Proof.
  induction s as [|c s IH]; cbn [split]; [reflexivity|].
  pose proof (split_nonempty sep s) as Hne.
  destruct (split sep s) as [|p ps]; [contradiction|].
  destruct (Ascii.eqb c sep) eqn:E.
  - apply Ascii.eqb_eq in E. subst c.
    change (String.concat (String sep EmptyString) (EmptyString :: p :: ps))
      with (String sep (String.concat (String sep EmptyString) (p :: ps))).
    rewrite IH. reflexivity.
  - destruct ps as [|q qs].
    + cbn [String.concat] in *. rewrite IH. reflexivity.
    + change (String.concat (String sep EmptyString) (String c p :: q :: qs))
        with (String c (String.concat (String sep EmptyString) (p :: q :: qs))).
      rewrite IH. reflexivity.
Qed.

Lemma concat_snoc (sep : string) (init : list string) (x : string) :
  init <> [] ->
  String.concat sep (init ++ [x])
  = (String.concat sep init ++ sep ++ x)%string.
Proof.
  induction init as [|a init IH]; intros H; [contradiction|].
  destruct init as [|b init]; [reflexivity|].
  change (String.concat sep ((a :: b :: init) ++ [x]))
    with (a ++ sep ++ String.concat sep ((b :: init) ++ [x]))%string.
  rewrite IH by discriminate.
  change (String.concat sep (a :: b :: init))
    with (a ++ sep ++ String.concat sep (b :: init))%string.
  rewrite !append_assoc. reflexivity.
Qed.

(** A string whose last part is [e] is [e] itself or ends with the
    separator followed by [e]. *)
Lemma last_split_inv (sep : ascii) (s e : string) :
  last (split sep s) EmptyString = e ->
  s = e \/ exists stem, s = (stem ++ String sep e)%string.
Proof.
  intros H. pose proof (concat_split sep s) as Hs.
  rewrite (app_removelast_last EmptyString (split_nonempty sep s)), H in Hs.
  destruct (removelast (split sep s)) as [|a init].
  - left. symmetry. exact Hs.
  - right. rewrite concat_snoc in Hs by discriminate.
    exists (String.concat (String sep EmptyString) (a :: init)).
    symmetry. exact Hs.
Qed.

(** ** The files the script posts *)

(** X15.  The script selects exactly the plain files of [compressed]
    whose name is [hfc] itself or ends with [.hfc]; only what follows
    the last dot counts, and the comparison is exact. *)
Theorem hific_files_are_the_hfc_files :
  forall (listdir : string -> list string) (isfile : string -> bool)
         (f : string),
    In f (reconstruct_py.hific_files listdir isfile) <->
    In f (listdir "compressed"%string)
    /\ isfile (join "./compressed" f) = true
    /\ (f = "hfc"%string \/ exists stem, f = (stem ++ ".hfc")%string).
Proof.
  intros listdir isfile f. unfold reconstruct_py.hific_files.
  rewrite filter_In, andb_true_iff. cbn [existsb]. rewrite orb_false_r.
  rewrite String.eqb_eq.
  split; intros (Hin & Hfile & Hext); (split; [exact Hin|split; [exact Hfile|]]).
  - apply (last_split_inv "."%char f "hfc" Hext).
  - destruct Hext as [-> | (stem & ->)]; [reflexivity|].
    apply (last_split_app "."%char stem "hfc").
Qed.






(** ** The singleton *)

(** Once the instance exists, [Compressor()] hands it out and does
    nothing else. *)
Lemma Compressor_calls_with_instance (Model Args Loader : Type)
    (answers : list (bool * option (Model * Args)))
    (cls : compressorModel._Compressor Model Args) :
  compressorModel._instance Model Args cls = Some tt ->
  compressorModel.Compressor_calls Model Args Loader answers cls
  = (cls, [], repeat (Some tt) (length answers)).
Proof.
  intros Hinst. induction answers as [|[made loaded] answers IH];
    [reflexivity|].
  cbn [compressorModel.Compressor_calls length repeat].
  unfold compressorModel.Compressor. rewrite Hinst, IH. reflexivity.
Qed.

Lemma Compressor_calls_without_instance (Model Args Loader : Type)
    (answers : list (bool * option (Model * Args)))
    (cls cls' : compressorModel._Compressor Model Args)
    (calls : list (compressorModel.call Model Args Loader))
    (results : list (option unit)) :
  compressorModel._instance Model Args cls = None ->
  compressorModel.Compressor_calls Model Args Loader answers cls
  = (cls', calls, results) ->
  exists k,
    (k <= length answers)%nat
    /\ calls
       = repeat (compressorModel.mkdir Model Args Loader
                   compressorModel.LOG_DIR) k
         ++ match compressorModel._instance Model Args cls' with
            | Some _ =>
                [compressorModel.mkdir Model Args Loader
                   compressorModel.LOG_DIR;
                 compressorModel.prepare_model Model Args Loader
                   compressorModel.PATH_TO_MODEL compressorModel.LOG_DIR]
            | None => []
            end
    /\ firstn k results = repeat None k
    /\ (forall r, In r (skipn (S k) results) -> r = Some tt)
    /\ (compressorModel._instance Model Args cls' = None ->
        k = length answers /\ cls' = cls).
Proof.
  revert cls' calls results.
  induction answers as [|[made loaded] answers IH];
    intros cls' calls results Hinst Hrun.
  - cbn [compressorModel.Compressor_calls] in Hrun.
    injection Hrun as <- <- <-. exists 0%nat. rewrite Hinst.
    split; [cbn; lia|]. split; [reflexivity|]. split; [reflexivity|].
    split; [intros r []|]. intros _. split; reflexivity.
  - cbn [compressorModel.Compressor_calls] in Hrun.
    unfold compressorModel.Compressor in Hrun. rewrite Hinst in Hrun.
    destruct made.
    + (* the directory is made: the instance exists from here on *)
      assert (Hrest : forall c,
                compressorModel._instance Model Args c = Some tt ->
                compressorModel.Compressor_calls Model Args Loader answers c
                = (c, [], repeat (Some tt) (length answers)))
        by (intros c Hc; apply Compressor_calls_with_instance; exact Hc).
      destruct loaded as [[m a]|]; cbn [compressorModel._instance] in Hrun;
        rewrite Hrest in Hrun by reflexivity;
        injection Hrun as <- <- <-; exists 0%nat;
        cbn [compressorModel._instance repeat app firstn skipn length];
        (split; [lia|]); (split; [reflexivity|]); (split; [reflexivity|]);
        (split; [|discriminate]);
        intros r Hr; apply repeat_spec in Hr; exact Hr.
    + (* it is not: nothing has changed *)
      destruct (compressorModel.Compressor_calls Model Args Loader answers cls)
        as [[cls1 calls1] results1] eqn:Hrun1.
      injection Hrun as <- <- <-.
      destruct (IH cls1 calls1 results1 Hinst eq_refl)
        as (k & Hk & Hcalls & Hfirst & Hlater & Hnone).
      exists (S k). cbn [length repeat app firstn skipn].
      rewrite Hcalls, Hfirst.
      split; [lia|]. split; [reflexivity|]. split; [reflexivity|].
      split; [exact Hlater|].
      intros Hn. destruct (Hnone Hn) as [-> ->]. split; reflexivity.
Qed.

(** X17.  Over any run of calls of [Compressor()], whatever the file
    system and the loader answer: the log directory is asked for until it
    could be made, the model loader is then called once, and no call is
    made after that; the calls that found no directory raised, and every
    call after the one that loaded, or failed to load, returns the
    instance. *)
Theorem Compressor_loads_the_model_at_most_once :
  forall (Model Args Loader : Type)
         (answers : list (bool * option (Model * Args)))
         (cls : compressorModel._Compressor Model Args)
         (calls : list (compressorModel.call Model Args Loader))
         (results : list (option unit)),
    compressorModel.Compressor_calls Model Args Loader answers
      (compressorModel.initial Model Args) = (cls, calls, results) ->
    exists k,
      (k <= length answers)%nat
      /\ calls
         = repeat (compressorModel.mkdir Model Args Loader
                     compressorModel.LOG_DIR) k
           ++ match compressorModel._instance Model Args cls with
              | Some _ =>
                  [compressorModel.mkdir Model Args Loader
                     compressorModel.LOG_DIR;
                   compressorModel.prepare_model Model Args Loader
                     compressorModel.PATH_TO_MODEL compressorModel.LOG_DIR]
              | None => []
              end
      /\ firstn k results = repeat None k
      /\ forall r, In r (skipn (S k) results) -> r = Some tt.
Proof.
  intros Model Args Loader answers cls calls results Hrun.
  destruct (Compressor_calls_without_instance Model Args Loader answers
              (compressorModel.initial Model Args) cls calls results
              eq_refl Hrun)
    as (k & Hk & Hcalls & Hfirst & Hlater & _).
  exists k. auto.
Qed.

Lemma Compressor_loads_the_model_at_most_once_witness :
  exists k,
    (k <= length [(false, None); (true, Some (tt, tt)); (true, Some (tt, tt))])%nat
    /\ [compressorModel.mkdir unit unit unit compressorModel.LOG_DIR;
        compressorModel.mkdir unit unit unit compressorModel.LOG_DIR;
        compressorModel.prepare_model unit unit unit
          compressorModel.PATH_TO_MODEL compressorModel.LOG_DIR]
       = repeat (compressorModel.mkdir unit unit unit
                   compressorModel.LOG_DIR) k
         ++ match
              compressorModel._instance unit unit
                (compressorModel.mk_Compressor unit unit (Some tt) (Some tt)
                   (Some tt))
            with
            | Some _ =>
                [compressorModel.mkdir unit unit unit compressorModel.LOG_DIR;
                 compressorModel.prepare_model unit unit unit
                   compressorModel.PATH_TO_MODEL compressorModel.LOG_DIR]
            | None => []
            end
    /\ firstn k [None; Some tt; Some tt] = repeat None k
    /\ forall r, In r (skipn (S k) [None; Some tt; Some tt]) -> r = Some tt.
Proof.
  apply (Compressor_loads_the_model_at_most_once unit unit unit
           [(false, None); (true, Some (tt, tt)); (true, Some (tt, tt))]).
  reflexivity.
Defined.

(** X18.  The instance is stored before the model is loaded: when the
    loader raises in the first call, every later call of [Compressor()]
    returns the instance without calling the loader again, the class
    never gets a model, and [compress] and [reconstruct] on that instance
    raise before they call anything. *)
Theorem failed_load_is_not_retried :
  forall (Model Args Loader : Type)
         (answers : list (bool * option (Model * Args)))
         (loader : option Loader) (saved decompressed : bool)
         (dir file output_dir : string),
    let cls :=
      fst (fst (compressorModel.Compressor Model Args Loader true None
                  (compressorModel.initial Model Args))) in
    snd (compressorModel.Compressor Model Args Loader true None
           (compressorModel.initial Model Args)) = None
    /\ compressorModel.Compressor_calls Model Args Loader answers cls
       = (cls, [], repeat (Some tt) (length answers))
    /\ compressorModel.compress Model Args Loader cls loader saved dir
       = ([], None)
    /\ compressorModel.reconstruct Model Args Loader cls decompressed file
         output_dir = ([], None).
Proof.
  intros Model Args Loader answers loader saved decompressed dir file
    output_dir cls.
  split; [reflexivity|]. split; [|split; reflexivity].
  apply Compressor_calls_with_instance. reflexivity.
Qed.

(** ** From the listing to the reconstructed files *)




